(** * Cymatic: the Chladni particle simulation of [script.js]

    A shallow embedding of the numeric core of the simulation: the field
    function [chladni], the frequency model [calculateFrequency], the
    particle store built by [createParticles], the audio level read by
    [getAudioLevel] and the per-frame integrator [animate].

    Numbers.  A JavaScript Number is modelled by [num]: a real number, or one
    of the three non-finite values [+Infinity], [-Infinity] and [NaN].  The
    operations follow IEEE 754 on the non-finite values and are exact on the
    finite ones: the rounding and the overflow of double arithmetic and the
    sign of zero are not modelled.

    Typed arrays.  The particle store lives in two [Float32Array]s, and a
    store into one converts the Number to float32.  [createParticles] and
    [animate] keep the stored value as it is; [createParticles32] and
    [animate32] are the same functions with the conversion [to_float32]
    (round to nearest, ties to even, overflow to an infinity) at every store.
    The properties that depend on the rounding of a store (the bound that a
    stored position obeys, the number that a stored velocity is) are stated
    about the latter.

    The constant [Math.PI].  [chladni] takes it to be the real number pi;
    [chladni_with] is the same function of the value of the constant, and
    [Math_PI_double] is the double that the program computes with.

    Randomness.  [Math.random()] is a stream [rand : nat -> R] of draws
    together with the number of draws consumed so far.

    Keys.  The key handlers of audio.js and the keyboard listeners of
    script.js work on the stack of active keys; the calls they make into
    Tone.js are recorded as a list.  [toUpperCase] maps the letters of ASCII
    only. *)

From Stdlib Require Import Reals Lra Lia ZArith Ascii Machin.
From stdpp Require Import base list strings.

Open Scope R_scope.

(** ** JavaScript numbers *)

Inductive num : Type :=
  | Fin (r : R)
  | PInf
  | NInf
  | NaN.

Coercion Fin : R >-> num.

Definition is_finite (a : num) : Prop :=
  match a with Fin _ => True | _ => False end.

(** The infinity with the sign of [r]; [0 * Infinity] is [NaN]. *)
Definition inf_of_sign (r : R) : num :=
  if Rlt_dec 0 r then PInf else if Rlt_dec r 0 then NInf else NaN.

Definition nneg (a : num) : num :=
  match a with
  | Fin r => Fin (- r)
  | PInf => NInf
  | NInf => PInf
  | NaN => NaN
  end.

Definition nadd (a b : num) : num :=
  match a, b with
  | Fin x, Fin y => Fin (x + y)
  | NaN, _ | _, NaN => NaN
  | PInf, NInf | NInf, PInf => NaN
  | PInf, _ | _, PInf => PInf
  | NInf, _ | _, NInf => NInf
  end.

Definition nsub (a b : num) : num := nadd a (nneg b).

Definition nmul (a b : num) : num :=
  match a, b with
  | Fin x, Fin y => Fin (x * y)
  | NaN, _ | _, NaN => NaN
  | Fin x, PInf | PInf, Fin x => inf_of_sign x
  | Fin x, NInf | NInf, Fin x => inf_of_sign (- x)
  | PInf, PInf | NInf, NInf => PInf
  | PInf, NInf | NInf, PInf => NInf
  end.

(** Division; a zero divisor counts as [+0]. *)
Definition ndiv (a b : num) : num :=
  match a, b with
  | Fin x, Fin y => if Req_dec_T y 0 then inf_of_sign x else Fin (x / y)
  | NaN, _ | _, NaN => NaN
  | Fin _, _ => Fin 0
  | PInf, Fin y => if Rlt_dec y 0 then NInf else PInf
  | NInf, Fin y => if Rlt_dec y 0 then PInf else NInf
  | _, _ => NaN
  end.

Definition Rgtb (x y : R) : bool := if Rlt_dec y x then true else false.

(** [a > b]; every comparison with [NaN] is false. *)
Definition ngt (a b : num) : bool :=
  match a, b with
  | Fin x, Fin y => Rgtb x y
  | PInf, Fin _ | PInf, NInf | Fin _, NInf => true
  | _, _ => false
  end.

Declare Scope num_scope.
Delimit Scope num_scope with J.
Bind Scope num_scope with num.
Infix "+" := nadd : num_scope.
Infix "-" := nsub : num_scope.
Infix "*" := nmul : num_scope.
Infix "/" := ndiv : num_scope.
Notation "- a" := (nneg a) : num_scope.
Infix ">?" := ngt (at level 70, no associativity) : num_scope.

(** ** The [Math] object *)

Definition Math_PI : num := Fin PI.


Definition Math_sin (a : num) : num :=
  match a with Fin r => Fin (sin r) | _ => NaN end.

Definition Math_cos (a : num) : num :=
  match a with Fin r => Fin (cos r) | _ => NaN end.

Definition Math_sqrt (a : num) : num :=
  match a with
  | Fin r => if Rlt_dec r 0 then NaN else Fin (sqrt r)
  | PInf => PInf
  | _ => NaN
  end.

Definition Math_abs (a : num) : num :=
  match a with
  | Fin r => Fin (Rabs r)
  | PInf | NInf => PInf
  | NaN => NaN
  end.

Definition Rsign (r : R) : R :=
  if Rlt_dec 0 r then 1 else if Rlt_dec r 0 then -1 else 0.

Definition Math_sign (a : num) : num :=
  match a with
  | Fin r => Fin (Rsign r)
  | PInf => Fin 1
  | NInf => Fin (-1)
  | NaN => NaN
  end.

Definition Math_max (a b : num) : num :=
  match a, b with
  | NaN, _ | _, NaN => NaN
  | _, _ => if (a >? b)%J then a else b
  end.

Definition Math_min (a b : num) : num :=
  match a, b with
  | NaN, _ | _, NaN => NaN
  | _, _ => if (a >? b)%J then b else a
  end.

(** [Math.max(...values)]: [-Infinity] for no argument. *)
Definition Math_max_spread (values : list num) : num :=
  fold_right Math_max NInf values.

(** [Math.floor(r)] of a non-negative product of a draw and a count, as an
    array index. *)
Definition Math_floor_index (r : R) : nat := Z.to_nat (Int_part r).

(** ** Typed arrays *)

(** [new Float32Array(len)] is filled with zeros. *)
Definition new_Float32Array (len : nat) : list num := replicate len (Fin 0).

(** A read past the end yields [undefined], which every use below turns
    into [NaN]. *)
Definition aget (a : list num) (i : nat) : num := default NaN (a !! i).

(** A write past the end of a typed array is ignored. *)
Definition aset (a : list num) (i : nat) (v : num) : list num := <[i := v]> a.

(** *** The elements of a [Float32Array]

    A store into a [Float32Array] converts the Number to the nearest float32:
    24 significant bits, exponents of the last place from -149, ties to even;
    a value that rounds beyond the largest float32 becomes an infinity. *)

(** The binade of [r]: [2^(binade r) <= |r| < 2^(binade r + 1)]. *)
Definition binade (r : R) : Z := Int_part (ln (Rabs r) / ln 2).

(** The nearest integer, ties to even. *)
Definition nearest_even (t : R) : Z :=
  let f := Int_part t in
  if Rlt_dec (t - IZR f) (1 / 2) then f
  else if Rlt_dec (1 / 2) (t - IZR f) then (f + 1)%Z
  else if Z.even f then f else (f + 1)%Z.

(** The exponent of the last place of the float32 numbers around [r]; -149
    for the subnormal numbers. *)
Definition ulp_exponent (r : R) : Z := Z.max (binade r - 23) (-149).

Definition round32 (r : R) : R :=
  Rsign r
  * (IZR (nearest_even (Rabs r * powerRZ 2 (- ulp_exponent r))) * powerRZ 2 (ulp_exponent r)).

Definition to_float32 (a : num) : num :=
  match a with
  | Fin r => if Rlt_dec (Rabs (round32 r)) (powerRZ 2 128) then Fin (round32 r) else inf_of_sign r
  | _ => a
  end.

(** [a[i] = v] on a [Float32Array]. *)
Definition aset32 (a : list num) (i : nat) (v : num) : list num := aset a i (to_float32 v).

(** [for (let i = lo; i < hi; i++) body] *)
Definition for_loop {S : Type} (lo hi : nat) (body : nat -> S -> S) (s : S) : S :=
  fold_left (fun acc i => body i acc) (seq lo (hi - lo)) s.

(** ** controls.js: the shared parameter object *)

Module PARAMS.
Record t : Type := mk {
  m : num;
  n : num;
  patternMixX : num;
  patternMixY : num;
  vibrationStrength : num;
  particles : nat
}.

(** The initial values of [PARAMS]. *)
Definition initial : t := mk 3 2 1 1 0.1 (50 * 1000).
End PARAMS.

(** ** audio.js: what the integrator reads *)

Module audio.
(** [analyzer] is unset until [setupAudio]; once set, [getValue()] returns
    the current waveform. *)
Record t : Type := mk {
  audioEnabled : bool;
  analyzer : option (list num)
}.

Definition isAudioEnabled (a : t) : bool := audioEnabled a.

Definition getAudioLevel (a : t) : num :=
  match analyzer a with
  | Some waveform =>
      if audioEnabled a then Math_max_spread (map Math_abs waveform) else Fin 0
  | None => Fin 0
  end.
End audio.

(** ** script.js *)

Definition PLANE_SIZE : num := 2.4.

Definition chladni (P : PARAMS.t) (x y m n : num) : num :=
  (let x := (x + 1) / 2 in
   let y := (y + 1) / 2 in
   let pattern1 := Math_sin (Math_PI * n * x) * Math_sin (Math_PI * m * y) in
   let pattern2 := Math_sin (Math_PI * m * x) * Math_sin (Math_PI * n * y) in
   PARAMS.patternMixX P * pattern1 + PARAMS.patternMixY P * pattern2)%J.


Definition calculateFrequency (m n a b : num) : num :=
  (let baseFreq := Math_sqrt (m * m + n * n) * 55 in
   let mixingEffect := Math_sqrt (a * a + b * b) in
   Math_min (Math_max (baseFreq * mixingEffect) 20) 2000)%J.

(** The particle store: [particlePositions] (three numbers per particle) and
    [particleVelocities] (two per particle).  The global [particles] is unset
    before the first [createParticles]. *)
Record Store : Type := mkStore {
  particlePositions : list num;
  particleVelocities : list num
}.

(** The globals of the simulation and the number of random draws consumed. *)
Record World : Type := mkWorld {
  particles : option Store;
  draws : nat
}.

Section Simulation.
Variable rand : nat -> R.

(** First loop of [createParticles]: copy particle [i]. *)
Definition copy_particle (cur : Store) (i : nat) (new : Store) : Store :=
  let currentPositions := particlePositions cur in
  let currentVelocities := particleVelocities cur in
  let newPositions := particlePositions new in
  let newVelocities := particleVelocities new in
  let newPositions := aset newPositions (i * 3) (aget currentPositions (i * 3)) in
  let newPositions := aset newPositions (i * 3 + 1) (aget currentPositions (i * 3 + 1)) in
  let newPositions := aset newPositions (i * 3 + 2) (aget currentPositions (i * 3 + 2)) in
  let newVelocities := aset newVelocities (i * 2) (aget currentVelocities (i * 2)) in
  let newVelocities := aset newVelocities (i * 2 + 1) (aget currentVelocities (i * 2 + 1)) in
  mkStore newPositions newVelocities.

(** Second loop: spawn particle [i] near a randomly chosen kept one. *)
Definition spawn_particle (cur : Store) (preserveCount : nat) (i : nat)
    (st : Store * nat) : Store * nat :=
  let '(new, k) := st in
  let currentPositions := particlePositions cur in
  let currentVelocities := particleVelocities cur in
  let newPositions := particlePositions new in
  let newVelocities := particleVelocities new in
  let sourceIdx := Math_floor_index (rand k * INR preserveCount) in
  let offsetScale : num := 0.1 in
  let newPositions :=
    aset newPositions (i * 3)
      (aget currentPositions (sourceIdx * 3) + (Fin (rand (k + 1)) - 0.5) * offsetScale)%J in
  let newPositions :=
    aset newPositions (i * 3 + 1)
      (aget currentPositions (sourceIdx * 3 + 1) + (Fin (rand (k + 2)) - 0.5) * offsetScale)%J in
  let newPositions := aset newPositions (i * 3 + 2) (Fin 0) in
  let newVelocities :=
    aset newVelocities (i * 2) (aget currentVelocities (sourceIdx * 2) * 0.5)%J in
  let newVelocities :=
    aset newVelocities (i * 2 + 1) (aget currentVelocities (sourceIdx * 2 + 1) * 0.5)%J in
  (mkStore newPositions newVelocities, (k + 3)%nat).

(** First creation: a uniformly random position, zero velocity. *)
Definition init_particle (i : nat) (st : Store * nat) : Store * nat :=
  let '(new, k) := st in
  let newPositions := particlePositions new in
  let newVelocities := particleVelocities new in
  let newPositions := aset newPositions (i * 3) ((Fin (rand k) - 0.5) * PLANE_SIZE)%J in
  let newPositions :=
    aset newPositions (i * 3 + 1) ((Fin (rand (k + 1)) - 0.5) * PLANE_SIZE)%J in
  let newPositions := aset newPositions (i * 3 + 2) (Fin 0) in
  let newVelocities := aset newVelocities (i * 2) (Fin 0) in
  let newVelocities := aset newVelocities (i * 2 + 1) (Fin 0) in
  (mkStore newPositions newVelocities, (k + 2)%nat).

(** [currentPositions.length / 3] is a whole number: every positions array
    was allocated with three entries per particle. *)
Definition createParticles (P : PARAMS.t) (w : World) : World :=
  let new :=
    mkStore (new_Float32Array (PARAMS.particles P * 3))
            (new_Float32Array (PARAMS.particles P * 2)) in
  let '(new, k) :=
    match particles w with
    | Some cur =>
        let currentCount := (length (particlePositions cur) / 3)%nat in
        let preserveCount := Nat.min currentCount (PARAMS.particles P) in
        let new := for_loop 0 preserveCount (copy_particle cur) new in
        for_loop preserveCount (PARAMS.particles P)
          (spawn_particle cur preserveCount) (new, draws w)
    | None => for_loop 0 (PARAMS.particles P) init_particle (new, draws w)
    end in
  mkWorld (Some new) k.
End Simulation.

(** [createParticles] with the arrays as [Float32Array]s: every store
    converts the value. *)
Section Simulation32.
Variable rand : nat -> R.

Definition copy_particle32 (cur : Store) (i : nat) (new : Store) : Store :=
  let currentPositions := particlePositions cur in
  let currentVelocities := particleVelocities cur in
  let newPositions := particlePositions new in
  let newVelocities := particleVelocities new in
  let newPositions := aset32 newPositions (i * 3) (aget currentPositions (i * 3)) in
  let newPositions := aset32 newPositions (i * 3 + 1) (aget currentPositions (i * 3 + 1)) in
  let newPositions := aset32 newPositions (i * 3 + 2) (aget currentPositions (i * 3 + 2)) in
  let newVelocities := aset32 newVelocities (i * 2) (aget currentVelocities (i * 2)) in
  let newVelocities := aset32 newVelocities (i * 2 + 1) (aget currentVelocities (i * 2 + 1)) in
  mkStore newPositions newVelocities.

Definition spawn_particle32 (cur : Store) (preserveCount : nat) (i : nat)
    (st : Store * nat) : Store * nat :=
  let '(new, k) := st in
  let currentPositions := particlePositions cur in
  let currentVelocities := particleVelocities cur in
  let newPositions := particlePositions new in
  let newVelocities := particleVelocities new in
  let sourceIdx := Math_floor_index (rand k * INR preserveCount) in
  let offsetScale : num := 0.1 in
  let newPositions :=
    aset32 newPositions (i * 3)
      (aget currentPositions (sourceIdx * 3) + (Fin (rand (k + 1)) - 0.5) * offsetScale)%J in
  let newPositions :=
    aset32 newPositions (i * 3 + 1)
      (aget currentPositions (sourceIdx * 3 + 1) + (Fin (rand (k + 2)) - 0.5) * offsetScale)%J in
  let newPositions := aset32 newPositions (i * 3 + 2) (Fin 0) in
  let newVelocities :=
    aset32 newVelocities (i * 2) (aget currentVelocities (sourceIdx * 2) * 0.5)%J in
  let newVelocities :=
    aset32 newVelocities (i * 2 + 1) (aget currentVelocities (sourceIdx * 2 + 1) * 0.5)%J in
  (mkStore newPositions newVelocities, (k + 3)%nat).

Definition init_particle32 (i : nat) (st : Store * nat) : Store * nat :=
  let '(new, k) := st in
  let newPositions := particlePositions new in
  let newVelocities := particleVelocities new in
  let newPositions := aset32 newPositions (i * 3) ((Fin (rand k) - 0.5) * PLANE_SIZE)%J in
  let newPositions :=
    aset32 newPositions (i * 3 + 1) ((Fin (rand (k + 1)) - 0.5) * PLANE_SIZE)%J in
  let newPositions := aset32 newPositions (i * 3 + 2) (Fin 0) in
  let newVelocities := aset32 newVelocities (i * 2) (Fin 0) in
  let newVelocities := aset32 newVelocities (i * 2 + 1) (Fin 0) in
  (mkStore newPositions newVelocities, (k + 2)%nat).

Definition createParticles32 (P : PARAMS.t) (w : World) : World :=
  let new :=
    mkStore (new_Float32Array (PARAMS.particles P * 3))
            (new_Float32Array (PARAMS.particles P * 2)) in
  let '(new, k) :=
    match particles w with
    | Some cur =>
        let currentCount := (length (particlePositions cur) / 3)%nat in
        let preserveCount := Nat.min currentCount (PARAMS.particles P) in
        let new := for_loop 0 preserveCount (copy_particle32 cur) new in
        for_loop preserveCount (PARAMS.particles P)
          (spawn_particle32 cur preserveCount) (new, draws w)
    | None => for_loop 0 (PARAMS.particles P) init_particle32 (new, draws w)
    end in
  mkWorld (Some new) k.
End Simulation32.

(** One particle as the loop body of [animate] holds it in [x], [y], [vx] and
    [vy]. *)
Module Particle.
Record t : Type := mk { x : num; y : num; vx : num; vy : num }.
End Particle.

(** [const force = value * PARAMS.vibrationStrength * (1 + audioLevel * 2)] *)
Definition force (P : PARAMS.t) (audioLevel value : num) : num :=
  (value * PARAMS.vibrationStrength P * (1 + audioLevel * 2))%J.

(** The body of the loop of [animate] between the reads and the writes of the
    arrays; [randomDraw] is the value of [Math.random()] in the active
    branch. *)
Definition step_particle (P : PARAMS.t) (audioLevel : num) (isAudioActive : bool)
    (randomDraw : R) (p : Particle.t) : Particle.t :=
  (let x := Particle.x p in
   let y := Particle.y p in
   let vx := Particle.vx p in
   let vy := Particle.vy p in
   let x_norm := x / (PLANE_SIZE / 2) in
   let y_norm := y / (PLANE_SIZE / 2) in
   let '(vx, vy) :=
     if isAudioActive then
       let value := chladni P x_norm y_norm (PARAMS.m P) (PARAMS.n P) in
       let force := force P audioLevel value in
       let randomAngle := Fin randomDraw * Math_PI * 2 in
       let randomness : num := 0.07 in
       let vx := vx + force * Math_cos randomAngle * randomness in
       let vy := vy + force * Math_sin randomAngle * randomness in
       (vx * 0.85, vy * 0.85)
     else
       let vx := vx * 0.85 in
       let vy := vy * 0.85 in
       let speed := Math_sqrt (vx * vx + vy * vy) in
       if speed >? 0.001 then
         let dampingFactor := Math_max 0.5 (1 - speed * 2) in
         (vx * dampingFactor, vy * dampingFactor)
       else (Fin 0, Fin 0) in
   let x := x + vx in
   let y := y + vy in
   let bound := PLANE_SIZE / 2 - 0.01 in
   let bounceDamping : num := 0.7 in
   let '(x, vx) :=
     if Math_abs x >? bound then (Math_sign x * bound, vx * - bounceDamping)
     else (x, vx) in
   let '(y, vy) :=
     if Math_abs y >? bound then (Math_sign y * bound, vy * - bounceDamping)
     else (y, vy) in
   Particle.mk x y vx vy)%J.

Section Animate.
Variable rand : nat -> R.

(** Iteration [i] of the loop of [animate]: read particle [i], update it,
    write it back.  The active branch consumes one draw. *)
Definition animate_particle (P : PARAMS.t) (audioLevel : num) (isAudioActive : bool)
    (i : nat) (st : Store * nat) : Store * nat :=
  let '(s, k) := st in
  let positions := particlePositions s in
  let velocities := particleVelocities s in
  let p :=
    Particle.mk (aget positions (i * 3)) (aget positions (i * 3 + 1))
                (aget velocities (i * 2)) (aget velocities (i * 2 + 1)) in
  let p := step_particle P audioLevel isAudioActive (rand k) p in
  let positions := aset positions (i * 3) (Particle.x p) in
  let positions := aset positions (i * 3 + 1) (Particle.y p) in
  let velocities := aset velocities (i * 2) (Particle.vx p) in
  let velocities := aset velocities (i * 2 + 1) (Particle.vy p) in
  (mkStore positions velocities, if isAudioActive then S k else k).

(** One frame. *)
Definition animate (P : PARAMS.t) (a : audio.t) (w : World) : World :=
  match particles w with
  | None => w
  | Some s =>
      let audioLevel := audio.getAudioLevel a in
      let isAudioActive := audio.isAudioEnabled a && (audioLevel >? 0.01)%J in
      let '(s, k) :=
        for_loop 0 (PARAMS.particles P)
          (animate_particle P audioLevel isAudioActive) (s, draws w) in
      mkWorld (Some s) k
  end.

(** The simulation loop over a sequence of frames, each with the parameters
    and the audio state current at that frame. *)
Definition run (frames : list (PARAMS.t * audio.t)) (w : World) : World :=
  fold_left (fun w f => animate (fst f) (snd f) w) frames w.
End Animate.

(** [animate] with the arrays as [Float32Array]s: the four writes of an
    iteration convert the value. *)
Section Animate32.
Variable rand : nat -> R.



End Animate32.

(** ** The stages of the loop body

    [step_particle] computes the new velocity, then moves and tests each
    coordinate against the bound. *)



(** ** audio.js: keys, patterns and the synthesizer

    Keys are ASCII strings.  The calls into Tone.js are recorded in the order
    they are made; inside the [try] block of [handleKeyDown] any of them may
    throw, which [fault] decides: [Some n] makes call number [n] (from 0)
    throw. *)

Definition toUpperCase_char (c : ascii) : ascii :=
  let code := nat_of_ascii c in
  if (97 <=? code)%nat && (code <=? 122)%nat then ascii_of_nat (code - 32) else c.

Fixpoint toUpperCase (s : string) : string :=
  match s with
  | EmptyString => EmptyString
  | String c s' => String (toUpperCase_char c) (toUpperCase s')
  end.

Module Pattern.
Record t : Type := mk { m : num; n : num; a : num; b : num; type : string }.
End Pattern.

(** [baseKeyPatternMap]: each key with its [basePattern] ([null] for SPACE). *)
Definition baseKeyPatternMap : list (string * option Pattern.t) :=
  [ ("A"%string, Some (Pattern.mk 1 9 2 (-2) "flower"));
    ("S"%string, Some (Pattern.mk 5 8 (-1) (-2) "complex"));
    ("D"%string, Some (Pattern.mk 1 5 1 (-1) "grid"));
    ("F"%string, Some (Pattern.mk 8 4 1 1 "diamond"));
    ("G"%string, Some (Pattern.mk 5 5 1 (-1) "concentric"));
    ("Q"%string, Some (Pattern.mk 7 7 1 1 "simple"));
    ("W"%string, Some (Pattern.mk 11 2 (-1) 2 "complex"));
    ("E"%string, Some (Pattern.mk 4 10 (-2) 1 "grid"));
    ("R"%string, Some (Pattern.mk 4 9 (-2) (-1) "diamond"));
    ("T"%string, Some (Pattern.mk 4 11 1 (-2) "concentric"));
    ("SPACE"%string, None) ].

(** [table[key]]: [None] is [undefined]. *)
Fixpoint property_get {V : Type} (table : list (string * V)) (key : string) : option V :=
  match table with
  | [] => None
  | (k, v) :: rest => if String.eqb k key then Some v else property_get rest key
  end.

(** [{ ...basePattern }]; the spread of [null] is an object without fields,
    whose reads give [undefined] (NaN in arithmetic). *)
Definition spread (basePattern : option Pattern.t) : Pattern.t :=
  match basePattern with
  | Some p => p
  | None => Pattern.mk NaN NaN NaN NaN ""
  end.

Definition calculateFrequencyFromPattern (pattern : Pattern.t) : num :=
  (let baseFreq :=
     Math_sqrt (Pattern.m pattern * Pattern.m pattern + Pattern.n pattern * Pattern.n pattern)
     * 55 in
   let amplitudeEffect :=
     Math_sqrt (Pattern.a pattern * Pattern.a pattern + Pattern.b pattern * Pattern.b pattern) in
   Math_min (Math_max (baseFreq * amplitudeEffect) 20) 2000)%J.

Module ActiveKey.
Record t : Type := mk { key : string; pattern : Pattern.t; frequency : num }.
End ActiveKey.

(** The [key] and [repeat] fields of a keyboard event. *)
Module KeyEvent.
Record t : Type := mk { key : string; repeat : bool }.
End KeyEvent.

Inductive tone_call : Type :=
  | filter_frequency_set (value : num)
  | filter_Q_set (value : num)
  | delay_delayTime_set (value : num)
  | synth_set (harmonicity modulationIndex : num)
  | synth_triggerAttack (frequency : num)
  | synth_triggerRelease
  | synth_frequency_set (value : num)
  | reverb_dispose
  | delay_dispose
  | filter_dispose.

(** The module state of audio.js: [core] holds [audioEnabled] and the
    analyzer, the flags say which Tone.js objects are set. *)
Module keys.
Record t : Type := mk {
  core : audio.t;
  synth : bool;
  filter : bool;
  delay : bool;
  reverb : bool;
  activeKeysStack : list ActiveKey.t
}.

Definition audioEnabled (s : t) : bool := audio.audioEnabled (core s).

Definition is_key (keyUpper : string) (item : ActiveKey.t) : bool :=
  String.eqb (ActiveKey.key item) keyUpper.

(** [array.findIndex(pred)]; [None] is -1. *)
Fixpoint findIndex {A : Type} (pred : A -> bool) (l : list A) : option nat :=
  match l with
  | [] => None
  | x :: rest => if pred x then Some 0%nat else S <$> findIndex pred rest
  end.

(** The calls of the [try] block of [handleKeyDown]. *)
Definition key_sound_calls (s : t) (pattern : Pattern.t) (freq : num) : list tone_call :=
  (let patternSum := Pattern.m pattern + Pattern.n pattern in
   (if filter s then
      let filterFreq := Math_min 10000 (freq * 2) in
      [filter_frequency_set filterFreq; filter_Q_set (Math_max 1 (patternSum / 4))]
    else [])
   ++ (if delay s then [delay_delayTime_set (Math_min 0.5 (0.1 + patternSum * 0.02))] else [])
   ++ [synth_set (Math_max 1 (patternSum / 2)) (Math_min 15 (patternSum * 1.5));
       synth_triggerAttack freq])%J.

(** The calls made before the throw, and whether the block completed. *)
Definition try_calls (fault : option nat) (calls : list tone_call) : list tone_call * bool :=
  match fault with
  | Some n => if (n <? length calls)%nat then (take n calls, false) else (calls, true)
  | None => (calls, true)
  end.

Definition handleKeyDown (P : PARAMS.t) (fault : option nat) (event : KeyEvent.t) (s : t)
    : t * option Pattern.t * list tone_call :=
  if negb (audioEnabled s) || negb (synth s) || KeyEvent.repeat event then (s, None, [])
  else if negb (filter s) || negb (delay s) || negb (reverb s) then (s, None, [])
  else
    let keyUpper := toUpperCase (KeyEvent.key event) in
    let keyData := property_get baseKeyPatternMap keyUpper in
    let isActive := existsb (is_key keyUpper) (activeKeysStack s) in
    match keyData with
    | Some basePattern =>
        if negb isActive then
          let pattern :=
            if String.eqb keyUpper "SPACE" then
              Pattern.mk (PARAMS.m P) (PARAMS.n P) (PARAMS.patternMixX P) (PARAMS.patternMixY P)
                         "current"
            else spread basePattern in
          let freq := calculateFrequencyFromPattern pattern in
          let activeKeyData := ActiveKey.mk keyUpper pattern freq in
          let s := mk (core s) (synth s) (filter s) (delay s) (reverb s)
                      (activeKeysStack s ++ [activeKeyData]) in
          let '(calls, completed) := try_calls fault (key_sound_calls s pattern freq) in
          (s, if completed then Some pattern else None, calls)
        else (s, None, [])
    | None => (s, None, [])
    end.

Definition handleKeyUp (event : KeyEvent.t) (s : t) : t * option Pattern.t * list tone_call :=
  if negb (audioEnabled s) || negb (synth s) then (s, None, [])
  else
    let keyUpper := toUpperCase (KeyEvent.key event) in
    match findIndex (is_key keyUpper) (activeKeysStack s) with
    | Some releasedKeyIndex =>
        let stack := delete releasedKeyIndex (activeKeysStack s) in
        let s := mk (core s) (synth s) (filter s) (delay s) (reverb s) stack in
        match last stack with
        | Some lastActiveKeyData =>
            (s, Some (ActiveKey.pattern lastActiveKeyData),
             [synth_triggerRelease; synth_triggerAttack (ActiveKey.frequency lastActiveKeyData)])
        | None => (s, None, [synth_triggerRelease])
        end
    | None => (s, None, [])
    end.

Definition isAudioEnabled (s : t) : bool := audioEnabled s.

Definition stopAudio (s : t) : t * list tone_call :=
  if synth s && audioEnabled s then
    (mk (audio.mk false (audio.analyzer (core s))) (synth s) false false false [],
     [synth_triggerRelease]
     ++ (if reverb s then [reverb_dispose] else [])
     ++ (if delay s then [delay_dispose] else [])
     ++ (if filter s then [filter_dispose] else []))
  else (s, []).

Definition updateFrequency (frequency : num) (s : t) : list tone_call :=
  if synth s && audioEnabled s then [synth_frequency_set frequency] else [].
End keys.

(** ** script.js: the keyboard listeners *)

(** The [code], [key] and [repeat] fields of the DOM event. *)
Module KeyboardEvent.
Record t : Type := mk { code : string; key : string; repeat : bool }.
End KeyboardEvent.

(** [PARAMS.m = pattern.m; PARAMS.n = pattern.n; PARAMS.patternMixX = pattern.a;
    PARAMS.patternMixY = pattern.b] *)
Definition adopt_pattern (P : PARAMS.t) (pattern : Pattern.t) : PARAMS.t :=
  PARAMS.mk (Pattern.m pattern) (Pattern.n pattern) (Pattern.a pattern) (Pattern.b pattern)
            (PARAMS.vibrationStrength P) (PARAMS.particles P).

(** The [keydown] listener; [isPlaying] is [PARAMS.isPlaying]. *)
Definition onKeyDown (isPlaying : bool) (fault : option nat) (event : KeyboardEvent.t)
    (st : PARAMS.t * keys.t) : PARAMS.t * keys.t * list tone_call :=
  let '(P, s) := st in
  if String.eqb (KeyboardEvent.code event) "Space" && negb (KeyboardEvent.repeat event) then
    if keys.isAudioEnabled s then
      let freq :=
        calculateFrequency (PARAMS.m P) (PARAMS.n P) (PARAMS.patternMixX P)
                           (PARAMS.patternMixY P) in
      let calls1 := keys.updateFrequency freq s in
      let '(s, _, calls2) := keys.handleKeyDown P fault (KeyEvent.mk "SPACE" false) s in
      (P, s, calls1 ++ calls2)
    else (P, s, [])
  else if keys.isAudioEnabled s || isPlaying then
    let '(s, pattern, calls) :=
      keys.handleKeyDown P fault
        (KeyEvent.mk (KeyboardEvent.key event) (KeyboardEvent.repeat event)) s in
    match pattern with
    | Some pattern => (adopt_pattern P pattern, s, calls)
    | None => (P, s, calls)
    end
  else (P, s, []).

(** The [keyup] listener. *)
Definition onKeyUp (event : KeyboardEvent.t) (st : PARAMS.t * keys.t)
    : PARAMS.t * keys.t * list tone_call :=
  let '(P, s) := st in
  if String.eqb (KeyboardEvent.code event) "Space" then
    if keys.isAudioEnabled s then
      let '(s, _, calls) := keys.handleKeyUp (KeyEvent.mk "SPACE" false) s in
      (P, s, calls)
    else (P, s, [])
  else if keys.isAudioEnabled s then
    let '(s, pattern, calls) :=
      keys.handleKeyUp (KeyEvent.mk (KeyboardEvent.key event) (KeyboardEvent.repeat event)) s in
    match pattern with
    | Some pattern => (adopt_pattern P pattern, s, calls)
    | None => (P, s, calls)
    end
  else (P, s, []).

(** What the page can do to the audio state. *)
Inductive ui_action : Type :=
  | KeyDown (isPlaying : bool) (fault : option nat) (event : KeyboardEvent.t)
  | KeyUp (event : KeyboardEvent.t)
  | StopAudio.

Definition react (st : PARAMS.t * keys.t) (action : ui_action) : PARAMS.t * keys.t :=
  match action with
  | KeyDown isPlaying fault event => fst (onKeyDown isPlaying fault event st)
  | KeyUp event => fst (onKeyUp event st)
  | StopAudio => (fst st, fst (keys.stopAudio (snd st)))
  end.

(** ** The loop body on finite numbers

    What [step_particle] computes when every number involved is finite,
    stage by stage; the properties below are proved through these. *)

(** [PLANE_SIZE / 2] and [bound = PLANE_SIZE / 2 - 0.01]. *)
Definition half_size : R := 2.4 / 2.
Definition bound : R := 2.4 / 2 - 0.01.

Definition half_size32 : R := 10066330 / 8388608.

(** The boundary test on one coordinate [c] with velocity [v]. *)
Definition bounce (c v : R) : R * R :=
  if Rlt_dec bound (Rabs c) then (Rsign c * bound, v * - (0.7)) else (c, v).

(** The inactive branch. *)
Definition idle (vx vy : R) : R * R :=
  let vx := vx * 0.85 in
  let vy := vy * 0.85 in
  let speed := sqrt (vx * vx + vy * vy) in
  if Rlt_dec 0.001 speed then
    (vx * Rmax 0.5 (1 - speed * 2), vy * Rmax 0.5 (1 - speed * 2))
  else (0, 0).

(** The active branch, for the force [f] and the angle [angle]. *)
Definition excited (f angle vx vy : R) : R * R :=
  ((vx + f * cos angle * 0.07) * 0.85, (vy + f * sin angle * 0.07) * 0.85).

(** Position update and boundary reflection for the new velocity [v]. *)
Definition settle (x y : R) (v : R * R) : Particle.t :=
  let '(x, vx) := bounce (x + fst v) (fst v) in
  let '(y, vy) := bounce (y + snd v) (snd v) in
  Particle.mk (Fin x) (Fin y) (Fin vx) (Fin vy).

(** The field value and the force on finite numbers. *)
Definition field_value (a b m n x y : R) : R :=
  a * (sin (PI * n * ((x + 1) / 2)) * sin (PI * m * ((y + 1) / 2)))
  + b * (sin (PI * m * ((x + 1) / 2)) * sin (PI * n * ((y + 1) / 2))).

Definition force_value (a b m n strength level x y : R) : R :=
  field_value a b m n (x / half_size) (y / half_size) * strength * (1 + level * 2).

(** ** Reading the store

    Particle [i] as iteration [i] of the loop of [animate] reads it, and the
    particle that iteration writes back, when the frame started with [k]
    draws consumed. *)

Definition particle_at (s : Store) (i : nat) : Particle.t :=
  Particle.mk (aget (particlePositions s) (i * 3)) (aget (particlePositions s) (i * 3 + 1))
              (aget (particleVelocities s) (i * 2)) (aget (particleVelocities s) (i * 2 + 1)).

Definition draw_index (isAudioActive : bool) (k i : nat) : nat :=
  if isAudioActive then (k + i)%nat else k.

Definition stepped (rand : nat -> R) (P : PARAMS.t) (audioLevel : num) (isAudioActive : bool)
    (k : nat) (s : Store) (i : nat) : Particle.t :=
  step_particle P audioLevel isAudioActive (rand (draw_index isAudioActive k i)) (particle_at s i).

(** The entry of an array after the loop ran over [count] particles: the
    written value [v] if particle [i] was visited and the entry exists. *)
Definition written (count i : nat) (v : num) (old : option num) : option num :=
  if decide (i < count)%nat then (fun _ => v) <$> old else old.

(** The particle that iteration [i] of the second loop of [createParticles]
    spawns when [k] draws were consumed before it. *)
Definition spawned (rand : nat -> R) (cur : Store) (preserveCount k : nat)
    : Particle.t :=
  let sourceIdx := Math_floor_index (rand k * INR preserveCount) in
  Particle.mk
    (aget (particlePositions cur) (sourceIdx * 3) + (Fin (rand (k + 1)%nat) - 0.5) * 0.1)%J
    (aget (particlePositions cur) (sourceIdx * 3 + 1) + (Fin (rand (k + 2)%nat) - 0.5) * 0.1)%J
    (aget (particleVelocities cur) (sourceIdx * 2) * 0.5)%J
    (aget (particleVelocities cur) (sourceIdx * 2 + 1) * 0.5)%J.

(** The particle as the arrays hold it after the four writes. *)
Definition stored (p : Particle.t) : Particle.t :=
  Particle.mk (to_float32 (Particle.x p)) (to_float32 (Particle.y p))
              (to_float32 (Particle.vx p)) (to_float32 (Particle.vy p)).

(** The store with every entry converted to float32. *)
Definition round_store (s : Store) : Store :=
  mkStore (to_float32 <$> particlePositions s) (to_float32 <$> particleVelocities s).

Definition round_state (st : Store * nat) : Store * nat := (round_store (fst st), snd st).

Definition round_world (w : World) : World :=
  mkWorld (round_store <$> particles w) (draws w).

(** ** Vocabulary of the properties *)

(** [const isAudioActive = audio.isAudioEnabled() && audioLevel > 0.01] *)
Definition isAudioActive (a : audio.t) : bool :=
  audio.isAudioEnabled a && (audio.getAudioLevel a >? 0.01)%J.

(** The arrays hold [count] particles. *)
Definition sized (count : nat) (s : Store) : Prop :=
  length (particlePositions s) = (count * 3)%nat
  /\ length (particleVelocities s) = (count * 2)%nat.

Definition not_NaN (a : num) : Prop := a <> NaN.


Definition finite_params (P : PARAMS.t) : Prop :=
  is_finite (PARAMS.m P) /\ is_finite (PARAMS.n P)
  /\ is_finite (PARAMS.patternMixX P) /\ is_finite (PARAMS.patternMixY P)
  /\ is_finite (PARAMS.vibrationStrength P).


(** Every particle is at a finite position with |x| and |y| at most [h]. *)
Definition contained (h : R) (count : nat) (s : Store) : Prop :=
  forall i, (i < count)%nat ->
    exists x y : R,
      particlePositions s !! (i * 3)%nat = Some (Fin x)
      /\ particlePositions s !! (i * 3 + 1)%nat = Some (Fin y)
      /\ Rabs x <= h /\ Rabs y <= h.


(** A frame over [count] particles during which audio is not active. *)
Definition idle_frame (count : nat) (f : PARAMS.t * audio.t) : Prop :=
  PARAMS.particles (fst f) = count /\ isAudioActive (snd f) = false.

(** Particle [i] of two stores is the same. *)
Definition same_particle (i : nat) (s1 s2 : Store) : Prop :=
  particlePositions s1 !! (i * 3)%nat = particlePositions s2 !! (i * 3)%nat
  /\ particlePositions s1 !! (i * 3 + 1)%nat = particlePositions s2 !! (i * 3 + 1)%nat
  /\ particleVelocities s1 !! (i * 2)%nat = particleVelocities s2 !! (i * 2)%nat
  /\ particleVelocities s1 !! (i * 2 + 1)%nat = particleVelocities s2 !! (i * 2 + 1)%nat.

(** The stack of active keys is well formed: no key occurs twice, every key
    is a key of [baseKeyPatternMap], and every entry stores the frequency of
    its own pattern. *)
Definition stack_ok (stack : list ActiveKey.t) : Prop :=
  NoDup (ActiveKey.key <$> stack)
  /\ Forall (fun item =>
               is_Some (property_get baseKeyPatternMap (ActiveKey.key item))
               /\ ActiveKey.frequency item = calculateFrequencyFromPattern (ActiveKey.pattern item))
            stack.

(** Audio is enabled and the synthesizer and its three effects are set. *)
Definition keys_ready (s : keys.t) : Prop :=
  keys.audioEnabled s = true /\ keys.synth s = true
  /\ keys.filter s = true /\ keys.delay s = true /\ keys.reverb s = true.

(** [event] presses a key of [baseKeyPatternMap] that is not held yet. *)
Definition fresh_press (event : KeyEvent.t) (s : keys.t) : Prop :=
  KeyEvent.repeat event = false
  /\ is_Some (property_get baseKeyPatternMap (toUpperCase (KeyEvent.key event)))
  /\ existsb (keys.is_key (toUpperCase (KeyEvent.key event))) (keys.activeKeysStack s) = false.

(** The pattern [handleKeyDown] takes for the key [keyUpper]. *)
Definition pressed_pattern (P : PARAMS.t) (keyUpper : string) : Pattern.t :=
  if String.eqb keyUpper "SPACE" then
    Pattern.mk (PARAMS.m P) (PARAMS.n P) (PARAMS.patternMixX P) (PARAMS.patternMixY P) "current"
  else
    match property_get baseKeyPatternMap keyUpper with
    | Some basePattern => spread basePattern
    | None => spread None
    end.

(** * Properties *)

(** ** Arithmetic of finite numbers *)

Lemma ndiv_Fin (x y : R) : y <> 0 -> (Fin x / Fin y)%J = Fin (x / y).
Proof. intros Hy. unfold ndiv. destruct (Req_dec_T y 0); [contradiction | reflexivity]. Qed.

Lemma Rgtb_true (x y : R) : y < x -> Rgtb x y = true.
Proof. intros H. unfold Rgtb. destruct (Rlt_dec y x); [reflexivity | contradiction]. Qed.

Lemma Rgtb_false (x y : R) : x <= y -> Rgtb x y = false.
Proof. intros H. unfold Rgtb. destruct (Rlt_dec y x); [lra | reflexivity]. Qed.

Lemma Math_sqrt_Fin (r : R) : 0 <= r -> Math_sqrt (Fin r) = Fin (sqrt r).
Proof. intros H. unfold Math_sqrt. destruct (Rlt_dec r 0); [lra | reflexivity]. Qed.

Lemma Math_max_Fin (x y : R) : Math_max (Fin x) (Fin y) = Fin (Rmax x y).
Proof.
  unfold Math_max, ngt, Rgtb, Rmax.
  destruct (Rlt_dec y x), (Rle_dec x y); try reflexivity; lra.
Qed.

Lemma Math_min_Fin (x y : R) : Math_min (Fin x) (Fin y) = Fin (Rmin x y).
Proof.
  unfold Math_min, ngt, Rgtb, Rmin.
  destruct (Rlt_dec y x), (Rle_dec x y); try reflexivity; lra.
Qed.

Lemma half_plane : (PLANE_SIZE / 2)%J = Fin 1.2.
Proof. unfold PLANE_SIZE. rewrite ndiv_Fin by lra. f_equal; lra. Qed.

Lemma square_sum_nonneg (a b : R) : 0 <= a * a + b * b.
Proof. nra. Qed.

(** ** The field function *)

Lemma chladni_Fin (P : PARAMS.t) (x y m n a b : R) :
  PARAMS.patternMixX P = Fin a -> PARAMS.patternMixY P = Fin b ->
  chladni P (Fin x) (Fin y) (Fin m) (Fin n) =
  Fin (a * (sin (PI * n * ((x + 1) / 2)) * sin (PI * m * ((y + 1) / 2)))
       + b * (sin (PI * m * ((x + 1) / 2)) * sin (PI * n * ((y + 1) / 2)))).
Proof.
  intros Ha Hb. unfold chladni. rewrite Ha, Hb.
  cbn [nadd]. rewrite !ndiv_Fin by lra. reflexivity.
Qed.

(** C1: on real inputs [chladni] returns
    a·sin(π·n·x')·sin(π·m·y') + b·sin(π·m·x')·sin(π·n·y') with x' = (x+1)/2 and
    y' = (y+1)/2; it is a function, so pure and deterministic, and its value
    is a (finite) real for all real inputs. *)
Theorem chladni_formula (x y m n a b : R) (pm pn strength : num) (count : nat) :
  chladni (PARAMS.mk pm pn (Fin a) (Fin b) strength count) (Fin x) (Fin y) (Fin m) (Fin n) =
  Fin (a * sin (PI * n * ((x + 1) / 2)) * sin (PI * m * ((y + 1) / 2))
       + b * sin (PI * m * ((x + 1) / 2)) * sin (PI * n * ((y + 1) / 2))).
Proof.
  erewrite chladni_Fin by reflexivity. f_equal. ring.
Qed.

Lemma sin_sin_bound (u v : R) : Rabs (sin u * sin v) <= 1.
Proof.
  rewrite Rabs_mult.
  pose proof (SIN_bound u) as [Hu1 Hu2]. pose proof (SIN_bound v) as [Hv1 Hv2].
  assert (Rabs (sin u) <= 1) by (apply Rabs_le; lra).
  assert (Rabs (sin v) <= 1) by (apply Rabs_le; lra).
  pose proof (Rabs_pos (sin u)). pose proof (Rabs_pos (sin v)). nra.
Qed.

(** C8: the value of [chladni] lies in [-(|a|+|b|), |a|+|b|]; this holds for
    all real x, y, m, n, a, b, so in particular for m, n in [1,15], a, b in
    [-2,2] and x, y in [-1,1]. *)
Theorem chladni_bounds (x y m n a b : R) (pm pn strength : num) (count : nat) :
  exists v : R,
    chladni (PARAMS.mk pm pn (Fin a) (Fin b) strength count) (Fin x) (Fin y) (Fin m) (Fin n)
      = Fin v
    /\ - (Rabs a + Rabs b) <= v <= Rabs a + Rabs b.
Proof.
  eexists. split; [apply chladni_Fin; reflexivity |].
  set (s1 := sin _ * sin _). set (s2 := sin _ * sin _).
  assert (H1 : Rabs (a * s1) <= Rabs a).
  { rewrite Rabs_mult. pose proof (sin_sin_bound (PI * n * ((x + 1) / 2)) (PI * m * ((y + 1) / 2))).
    fold s1 in H. pose proof (Rabs_pos a). nra. }
  assert (H2 : Rabs (b * s2) <= Rabs b).
  { rewrite Rabs_mult. pose proof (sin_sin_bound (PI * m * ((x + 1) / 2)) (PI * n * ((y + 1) / 2))).
    fold s2 in H. pose proof (Rabs_pos b). nra. }
  pose proof (Rabs_triang (a * s1) (b * s2)) as Ht.
  pose proof (Rle_abs (a * s1 + b * s2)) as Hu.
  pose proof (Rle_abs (- (a * s1 + b * s2))) as Hl.
  rewrite Rabs_Ropp in Hl. lra.
Qed.

(** *** The field on the edges of the plate *)








(** ** The frequency model *)

Lemma calculateFrequency_Fin (m n a b : R) :
  calculateFrequency (Fin m) (Fin n) (Fin a) (Fin b) =
  Fin (Rmin (Rmax (sqrt (m * m + n * n) * 55 * sqrt (a * a + b * b)) 20) 2000).
Proof.
  unfold calculateFrequency. cbn [nmul nadd].
  rewrite !Math_sqrt_Fin by apply square_sum_nonneg. cbn [nmul].
  rewrite Math_max_Fin, Math_min_Fin. reflexivity.
Qed.

Lemma clamp_range (v : R) : 20 <= Rmin (Rmax v 20) 2000 <= 2000.
Proof.
  unfold Rmin, Rmax. destruct (Rle_dec v 20); destruct (Rle_dec _ 2000); lra.
Qed.

(** C7: [calculateFrequency] returns
    min(max(sqrt(m²+n²)·55·sqrt(a²+b²), 20), 2000), a value in [20, 2000] (for
    all real arguments, so for m, n in [1,15] and a, b in [-2,2]);
    calculateFrequency(1,1,0,0) is 20 and calculateFrequency(15,15,2,2) is
    2000. *)
Theorem calculateFrequency_clamp (m n a b : R) :
  calculateFrequency (Fin m) (Fin n) (Fin a) (Fin b) =
    Fin (Rmin (Rmax (sqrt (m * m + n * n) * 55 * sqrt (a * a + b * b)) 20) 2000)
  /\ 20 <= Rmin (Rmax (sqrt (m * m + n * n) * 55 * sqrt (a * a + b * b)) 20) 2000 <= 2000
  /\ calculateFrequency (Fin 1) (Fin 1) (Fin 0) (Fin 0) = Fin 20
  /\ calculateFrequency (Fin 15) (Fin 15) (Fin 2) (Fin 2) = Fin 2000.
Proof.
  split; [apply calculateFrequency_Fin |]. split; [apply clamp_range |]. split.
  - rewrite calculateFrequency_Fin. f_equal.
    replace (0 * 0 + 0 * 0) with 0 by ring. rewrite sqrt_0.
    unfold Rmin, Rmax.
    destruct (Rle_dec (sqrt (1 * 1 + 1 * 1) * 55 * 0) 20); [| lra].
    destruct (Rle_dec 20 2000); lra.
  - rewrite calculateFrequency_Fin. f_equal.
    assert (H1 : 21 <= sqrt (15 * 15 + 15 * 15)).
    { rewrite <- (sqrt_square 21) at 1 by lra. apply sqrt_le_1; lra. }
    assert (H2 : 2 <= sqrt (2 * 2 + 2 * 2)).
    { rewrite <- (sqrt_square 2) at 1 by lra. apply sqrt_le_1; lra. }
    unfold Rmin, Rmax.
    destruct (Rle_dec (sqrt (15 * 15 + 15 * 15) * 55 * sqrt (2 * 2 + 2 * 2)) 20); [nra |].
    destruct (Rle_dec _ 2000); [nra | lra].
Qed.

Lemma bound_num : (PLANE_SIZE / 2 - 0.01)%J = Fin bound.
Proof. rewrite half_plane. unfold bound. cbn. f_equal. lra. Qed.

Lemma step_particle_idle (P : PARAMS.t) (level : num) (r x y vx vy : R) :
  step_particle P level false r (Particle.mk (Fin x) (Fin y) (Fin vx) (Fin vy)) =
  settle x y (idle vx vy).
Proof.
  unfold step_particle. rewrite bound_num.
  cbn [Particle.x Particle.y Particle.vx Particle.vy nmul nadd nsub nneg].
  rewrite Math_sqrt_Fin by apply square_sum_nonneg.
  cbn [nmul nadd nsub nneg ngt]. rewrite Math_max_Fin.
  unfold settle, idle, bounce, Rgtb.
  destruct (Rlt_dec 0.001 _);
    cbn [fst snd nadd nmul nneg Math_abs Math_sign ngt]; unfold Rgtb;
    repeat destruct (Rlt_dec bound _); reflexivity.
Qed.

Lemma step_particle_excited (m n a b strength level r x y vx vy : R) (count : nat) :
  step_particle (PARAMS.mk (Fin m) (Fin n) (Fin a) (Fin b) (Fin strength) count)
    (Fin level) true r (Particle.mk (Fin x) (Fin y) (Fin vx) (Fin vy)) =
  settle x y (excited (force_value a b m n strength level x y) (r * PI * 2) vx vy).
Proof.
  unfold step_particle. rewrite bound_num, half_plane.
  cbn [Particle.x Particle.y Particle.vx Particle.vy PARAMS.m PARAMS.n].
  rewrite !ndiv_Fin by lra.
  erewrite chladni_Fin by reflexivity.
  unfold force, force_value, field_value, half_size, Math_PI.
  cbn [PARAMS.vibrationStrength nmul nadd nsub nneg Math_cos Math_sin].
  unfold settle, excited, bounce.
  cbn [fst snd nadd nmul nneg Math_abs Math_sign ngt]; unfold Rgtb.

  replace (2.4 / 2) with 1.2 by lra.
  repeat destruct (Rlt_dec bound _); reflexivity.
Qed.

(** ** Loops and arrays *)

Lemma for_loop_S {S : Type} (lo hi : nat) (body : nat -> S -> S) (s : S) :
  (lo <= hi)%nat -> for_loop lo (Datatypes.S hi) body s = body hi (for_loop lo hi body s).
Proof.
  intros H. unfold for_loop.
  replace (Datatypes.S hi - lo)%nat with (Datatypes.S (hi - lo)) by lia.
  rewrite seq_S, fold_left_app. cbn. f_equal. lia.
Qed.

Lemma for_loop_nil {S : Type} (lo hi : nat) (body : nat -> S -> S) (s : S) :
  (hi <= lo)%nat -> for_loop lo hi body s = s.
Proof.
  intros H. unfold for_loop. replace (hi - lo)%nat with 0%nat by lia. reflexivity.
Qed.

Lemma lookup_aset_eq (a : list num) (i : nat) (v : num) :
  aset a i v !! i = (fun _ => v) <$> (a !! i).
Proof.
  unfold aset. destruct (a !! i) as [u |] eqn:E.
  - cbn. apply list_lookup_insert_eq. eapply lookup_lt_Some; eauto.
  - cbn. rewrite list_insert_ge; [exact E |]. by apply lookup_ge_None.
Qed.

Lemma lookup_aset_ne (a : list num) (i j : nat) (v : num) :
  i <> j -> aset a i v !! j = a !! j.
Proof. intros H. unfold aset. by apply list_lookup_insert_ne. Qed.

Lemma length_aset (a : list num) (i : nat) (v : num) : length (aset a i v) = length a.
Proof. apply length_insert. Qed.

Lemma aget_lookup (a b : list num) (i j : nat) : a !! i = b !! j -> aget a i = aget b j.
Proof. unfold aget. by intros ->. Qed.

(** ** The loop of [animate] as a map over the particles *)

Section AnimateLoop.
Variable rand : nat -> R.
Variables (P : PARAMS.t) (level : num) (act : bool).

Lemma animate_particle_spec (c : nat) (s : Store) (k : nat) :
  let p := step_particle P level act (rand k) (particle_at s c) in
  let s' := fst (animate_particle rand P level act c (s, k)) in
  snd (animate_particle rand P level act c (s, k)) = (if act then S k else k)
  /\ (forall idx, particlePositions s' !! idx =
        if decide (idx = c * 3)%nat then (fun _ => Particle.x p) <$> particlePositions s !! idx
        else if decide (idx = c * 3 + 1)%nat
             then (fun _ => Particle.y p) <$> particlePositions s !! idx
             else particlePositions s !! idx)
  /\ (forall idx, particleVelocities s' !! idx =
        if decide (idx = c * 2)%nat then (fun _ => Particle.vx p) <$> particleVelocities s !! idx
        else if decide (idx = c * 2 + 1)%nat
             then (fun _ => Particle.vy p) <$> particleVelocities s !! idx
             else particleVelocities s !! idx).
Proof.
  cbn [animate_particle fst snd particlePositions particleVelocities].
  fold (particle_at s c).
  split; [reflexivity |]. split; intros idx.
  - destruct (decide (idx = c * 3)%nat) as [-> | H0].
    + rewrite lookup_aset_ne by lia. apply lookup_aset_eq.
    + destruct (decide (idx = c * 3 + 1)%nat) as [-> | H1].
      * rewrite lookup_aset_eq, lookup_aset_ne by lia. reflexivity.
      * rewrite !lookup_aset_ne by lia. reflexivity.
  - destruct (decide (idx = c * 2)%nat) as [-> | H0].
    + rewrite lookup_aset_ne by lia. apply lookup_aset_eq.
    + destruct (decide (idx = c * 2 + 1)%nat) as [-> | H1].
      * rewrite lookup_aset_eq, lookup_aset_ne by lia. reflexivity.
      * rewrite !lookup_aset_ne by lia. reflexivity.
Qed.

Lemma animate_loop_spec (s : Store) (k c : nat) :
  let s' := fst (for_loop 0 c (animate_particle rand P level act) (s, k)) in
  snd (for_loop 0 c (animate_particle rand P level act) (s, k)) = draw_index act k c
  /\ forall j,
       particlePositions s' !! (j * 3)%nat =
         written c j (Particle.x (stepped rand P level act k s j)) (particlePositions s !! (j * 3)%nat)
       /\ particlePositions s' !! (j * 3 + 1)%nat =
         written c j (Particle.y (stepped rand P level act k s j))
           (particlePositions s !! (j * 3 + 1)%nat)
       /\ particlePositions s' !! (j * 3 + 2)%nat = particlePositions s !! (j * 3 + 2)%nat
       /\ particleVelocities s' !! (j * 2)%nat =
         written c j (Particle.vx (stepped rand P level act k s j))
           (particleVelocities s !! (j * 2)%nat)
       /\ particleVelocities s' !! (j * 2 + 1)%nat =
         written c j (Particle.vy (stepped rand P level act k s j))
           (particleVelocities s !! (j * 2 + 1)%nat).
Proof.
  induction c as [| c IH].
  - cbn. split; [unfold draw_index; destruct act; [lia | reflexivity] |].
    intros j. unfold written. destruct (decide (j < 0)%nat); [lia |]. repeat split.
  - rewrite for_loop_S by lia.
    destruct (for_loop 0 c (animate_particle rand P level act) (s, k)) as [s1 k1] eqn:E.
    cbn [fst snd] in IH. destruct IH as [Hk IH].
    pose proof (animate_particle_spec c s1 k1) as (Hk' & Hp & Hv).
    cbv zeta in Hp, Hv.
    assert (Hsame : step_particle P level act (rand k1) (particle_at s1 c)
                    = stepped rand P level act k s c).
    { unfold stepped. rewrite Hk. f_equal. unfold particle_at.
      destruct (IH c) as (H0 & H1 & _ & H3 & H4).
      unfold written in H0, H1, H3, H4.
      destruct (decide (c < c)%nat); [lia |].
      f_equal; by apply aget_lookup. }
    rewrite Hsame in Hp, Hv. cbv zeta. split.
    + rewrite Hk', Hk. unfold draw_index. destruct act; lia.
    + intros j. destruct (IH j) as (H0 & H1 & H2 & H3 & H4).
      rewrite !Hp, !Hv. unfold written in *.
      destruct (decide (j = c)) as [-> | Hne].
      * destruct (decide (c < c)%nat); [lia |].
        destruct (decide (c < S c)%nat); [| lia].
        repeat case_decide; try lia.
        rewrite H0, H1, H2, H3, H4. repeat split.
      * repeat case_decide; try lia; rewrite ?H0, ?H1, ?H2, ?H3, ?H4; repeat split.
Qed.
End AnimateLoop.

(** ** The stages of the loop body on finite numbers *)

Lemma Rsign_abs (c : R) : c <> 0 -> Rabs (Rsign c) = 1.
Proof.
  intros H. unfold Rsign.
  destruct (Rlt_dec 0 c); [apply Rabs_R1 |].
  destruct (Rlt_dec c 0); [| lra].
  unfold Rabs. destruct (Rcase_abs (-1)); lra.
Qed.

Lemma bound_pos : 0 < bound.
Proof. unfold bound. lra. Qed.

Lemma bounce_pos_bound (c v : R) : Rabs (fst (bounce c v)) <= bound.
Proof.
  pose proof bound_pos as Hb. unfold bounce.
  destruct (Rlt_dec bound (Rabs c)) as [H | H]; cbn [fst]; [| lra].
  rewrite Rabs_mult, Rsign_abs, (Rabs_pos_eq bound); [lra | lra |].
  intros ->. rewrite Rabs_R0 in H. lra.
Qed.

Lemma bounce_vel_sq (c v : R) : snd (bounce c v) * snd (bounce c v) <= v * v.
Proof.
  unfold bounce. destruct (Rlt_dec bound (Rabs c)); cbn [snd]; nra.
Qed.


Lemma sqrt_scaled (k a b : R) :
  0 <= k -> sqrt (a * k * (a * k) + b * k * (b * k)) = k * sqrt (a * a + b * b).
Proof.
  intros Hk.
  replace (a * k * (a * k) + b * k * (b * k)) with (k * k * (a * a + b * b)) by ring.
  rewrite sqrt_mult; [| nra | apply square_sum_nonneg].
  rewrite sqrt_square by exact Hk. reflexivity.
Qed.

Lemma idle_snap (vx vy : R) : 0.85 * sqrt (vx * vx + vy * vy) <= 0.001 -> idle vx vy = (0, 0).
Proof.
  intros H. unfold idle. rewrite sqrt_scaled by lra.
  destruct (Rlt_dec 0.001 _); [lra | reflexivity].
Qed.

Lemma idle_speed (vx vy : R) :
  fst (idle vx vy) * fst (idle vx vy) + snd (idle vx vy) * snd (idle vx vy)
  <= 0.85 * 0.85 * (vx * vx + vy * vy).
Proof.
  unfold idle. destruct (Rlt_dec 0.001 _) as [H | H]; cbn [fst snd].
  - set (s := sqrt _) in *.
    assert (Hd : 0 <= Rmax 0.5 (1 - s * 2) <= 1).
    { unfold Rmax. destruct (Rle_dec 0.5 (1 - s * 2)); lra. }
    set (d := Rmax 0.5 (1 - s * 2)) in *.
    assert (Hd2 : d * d <= 1) by nra.
    pose proof (square_sum_nonneg vx vy).
    replace (vx * 0.85 * d * (vx * 0.85 * d) + vy * 0.85 * d * (vy * 0.85 * d))
      with (0.85 * 0.85 * (vx * vx + vy * vy) * (d * d)) by ring.
    nra.
  - pose proof (square_sum_nonneg vx vy). nra.
Qed.

(** One inactive step of a finite particle: the result is finite, inside the
    bound, no faster than 0.85 times the old speed, and at rest once that
    product is at most 0.001. *)
Lemma idle_step_shape (P : PARAMS.t) (level : num) (r x y vx vy : R) :
  exists x' y' vx' vy' : R,
    step_particle P level false r (Particle.mk (Fin x) (Fin y) (Fin vx) (Fin vy))
      = Particle.mk (Fin x') (Fin y') (Fin vx') (Fin vy')
    /\ Rabs x' <= bound /\ Rabs y' <= bound
    /\ sqrt (vx' * vx' + vy' * vy') <= 0.85 * sqrt (vx * vx + vy * vy)
    /\ (0.85 * sqrt (vx * vx + vy * vy) <= 0.001 -> vx' = 0 /\ vy' = 0).
Proof.
  rewrite step_particle_idle. unfold settle.
  pose proof (idle_speed vx vy) as Hs. pose proof (idle_snap vx vy) as Hz.
  destruct (idle vx vy) as [ux uy]. cbn [fst snd] in *.
  pose proof (bounce_pos_bound (x + ux) ux) as Hx.
  pose proof (bounce_pos_bound (y + uy) uy) as Hy.
  pose proof (bounce_vel_sq (x + ux) ux) as Hvx.
  pose proof (bounce_vel_sq (y + uy) uy) as Hvy.
  assert (Hzx : ux = 0 -> snd (bounce (x + ux) ux) = 0).
  { intros ->. unfold bounce. destruct (Rlt_dec _ _); cbn; lra. }
  assert (Hzy : uy = 0 -> snd (bounce (y + uy) uy) = 0).
  { intros ->. unfold bounce. destruct (Rlt_dec _ _); cbn; lra. }
  destruct (bounce (x + ux) ux) as [x' vx'], (bounce (y + uy) uy) as [y' vy'].
  cbn [fst snd] in *.
  exists x', y', vx', vy'.
  split; [reflexivity |]. split; [exact Hx |]. split; [exact Hy |]. split.
  - rewrite <- (sqrt_scaled 0.85) by lra.
    apply sqrt_le_1; [apply square_sum_nonneg | apply square_sum_nonneg |].
    replace (vx * 0.85 * (vx * 0.85) + vy * 0.85 * (vy * 0.85))
      with (0.85 * 0.85 * (vx * vx + vy * vy)) by ring.
    lra.
  - intros H. specialize (Hz H). injection Hz as -> ->. auto.
Qed.

(** ** One frame on a store of [count] particles *)

Section Frame.
Variable rand : nat -> R.

Lemma animate_loop_length (P : PARAMS.t) (level : num) (act : bool) (s : Store) (k c : nat) :
  let s' := fst (for_loop 0 c (animate_particle rand P level act) (s, k)) in
  length (particlePositions s') = length (particlePositions s)
  /\ length (particleVelocities s') = length (particleVelocities s).
Proof.
  induction c as [| c IH]; [by cbn |].
  rewrite for_loop_S by lia.
  destruct (for_loop 0 c (animate_particle rand P level act) (s, k)) as [s1 k1].
  cbn [fst] in *. cbn [animate_particle fst particlePositions particleVelocities].
  rewrite !length_aset. exact IH.
Qed.

Lemma animate_unfold (P : PARAMS.t) (a : audio.t) (s : Store) (k : nat) :
  animate rand P a (mkWorld (Some s) k) =
  mkWorld
    (Some (fst (for_loop 0 (PARAMS.particles P)
                  (animate_particle rand P (audio.getAudioLevel a) (isAudioActive a)) (s, k))))
    (draw_index (isAudioActive a) k (PARAMS.particles P)).
Proof.
  unfold animate. cbn [particles draws]. fold (isAudioActive a).
  pose proof (animate_loop_spec rand P (audio.getAudioLevel a) (isAudioActive a) s k
                (PARAMS.particles P)) as [Hk _].
  destruct (for_loop _ _ _ _) as [s1 k1]. cbn [fst snd] in *. by rewrite Hk.
Qed.

(** A frame maps [step_particle] over the particles of the store. *)
Lemma animate_particle_at (P : PARAMS.t) (a : audio.t) (s : Store) (k count : nat) :
  sized count s -> PARAMS.particles P = count ->
  exists s',
    animate rand P a (mkWorld (Some s) k) = mkWorld (Some s') (draw_index (isAudioActive a) k count)
    /\ sized count s'
    /\ (forall i, (i < count)%nat ->
          particle_at s' i = stepped rand P (audio.getAudioLevel a) (isAudioActive a) k s i)
    /\ (forall i, particlePositions s' !! (i * 3 + 2)%nat = particlePositions s !! (i * 3 + 2)%nat).
Proof.
  intros [Hlp Hlv] HP. rewrite animate_unfold, HP.
  set (level := audio.getAudioLevel a). set (act := isAudioActive a).
  pose proof (animate_loop_spec rand P level act s k count) as [_ Hspec].
  pose proof (animate_loop_length P level act s k count) as [Hl1 Hl2].
  cbv zeta in Hspec, Hl1, Hl2.
  set (s' := fst _) in *. exists s'. split; [reflexivity |]. split; [| split].
  - split; congruence.
  - intros i Hi. destruct (Hspec i) as (H0 & H1 & _ & H3 & H4).
    unfold written in *. destruct (decide (i < count)%nat); [| lia].
    destruct (lookup_lt_is_Some_2 (particlePositions s) (i * 3)) as [u0 E0]; [lia |].
    destruct (lookup_lt_is_Some_2 (particlePositions s) (i * 3 + 1)) as [u1 E1]; [lia |].
    destruct (lookup_lt_is_Some_2 (particleVelocities s) (i * 2)) as [u3 E3]; [lia |].
    destruct (lookup_lt_is_Some_2 (particleVelocities s) (i * 2 + 1)) as [u4 E4]; [lia |].
    rewrite E0 in H0. rewrite E1 in H1. rewrite E3 in H3. rewrite E4 in H4.
    unfold particle_at at 1, aget. rewrite H0, H1, H3, H4. cbn.
    by destruct (stepped rand P level act k s i).
  - intros i. by destruct (Hspec i) as (_ & _ & H2 & _).
Qed.
End Frame.

(** ** No coupling between particles *)

Lemma same_particle_at (i : nat) (s1 s2 : Store) :
  same_particle i s1 s2 -> particle_at s1 i = particle_at s2 i.
Proof.
  intros (H0 & H1 & H2 & H3). unfold particle_at. f_equal; by apply aget_lookup.
Qed.

(** C9: the state of particle [i] after a frame depends only on particle
    [i] before it (and on the parameters, the audio inputs and the random
    draws): two stores that agree on particle [i] and differ arbitrarily
    elsewhere, for instance by a permutation of the other particles, agree on
    particle [i] after the frame. *)
Theorem no_inter_particle_coupling (rand : nat -> R) (P : PARAMS.t) (a : audio.t)
    (i k : nat) (s1 s2 : Store) :
  same_particle i s1 s2 ->
  exists s1' s2',
    particles (animate rand P a (mkWorld (Some s1) k)) = Some s1'
    /\ particles (animate rand P a (mkWorld (Some s2) k)) = Some s2'
    /\ same_particle i s1' s2'.
Proof.
  intros Hsame. rewrite !animate_unfold. cbn [particles].
  eexists _, _. split; [reflexivity |]. split; [reflexivity |].
  set (level := audio.getAudioLevel a). set (act := isAudioActive a).
  pose proof (animate_loop_spec rand P level act s1 k (PARAMS.particles P)) as [_ H1].
  pose proof (animate_loop_spec rand P level act s2 k (PARAMS.particles P)) as [_ H2].
  cbv zeta in H1, H2.
  destruct (H1 i) as (A0 & A1 & _ & A3 & A4). destruct (H2 i) as (B0 & B1 & _ & B3 & B4).
  assert (Hst : stepped rand P level act k s1 i = stepped rand P level act k s2 i).
  { unfold stepped. by rewrite (same_particle_at i s1 s2 Hsame). }
  destruct Hsame as (E0 & E1 & E2 & E3).
  unfold same_particle. rewrite A0, A1, A3, A4, B0, B1, B3, B4, Hst, E0, E1, E2, E3.
  repeat split.
Qed.

Lemma no_inter_particle_coupling_witness :
  exists s1' s2',
    particles (animate (fun _ => 0) (PARAMS.mk 3 2 1 1 0.1 2) (audio.mk false None)
                 (mkWorld (Some (mkStore [Fin 1; Fin 0.5; Fin 0; Fin 0.2; Fin 0.3; Fin 0]
                                         [Fin 0.1; Fin 0; Fin 0.4; Fin 0.4])) 0)) = Some s1'
    /\ particles (animate (fun _ => 0) (PARAMS.mk 3 2 1 1 0.1 2) (audio.mk false None)
                 (mkWorld (Some (mkStore [Fin 1; Fin 0.5; Fin 0; Fin (-1); Fin 0; Fin 0]
                                         [Fin 0.1; Fin 0; Fin 0; Fin 0])) 0)) = Some s2'
    /\ same_particle 0 s1' s2'.
Proof.
  apply no_inter_particle_coupling.
  repeat split.
Defined.

(** ** The audio level of an active frame *)



(** ** Particles of a sized store *)

Lemma aget_in_range (a : list num) (i : nat) : (i < length a)%nat -> a !! i = Some (aget a i).
Proof.
  intros H. unfold aget. by destruct (lookup_lt_is_Some_2 a i H) as [u ->].
Qed.

Lemma lookup_particle_at (count : nat) (s : Store) (i : nat) :
  sized count s -> (i < count)%nat ->
  particlePositions s !! (i * 3)%nat = Some (Particle.x (particle_at s i))
  /\ particlePositions s !! (i * 3 + 1)%nat = Some (Particle.y (particle_at s i))
  /\ particleVelocities s !! (i * 2)%nat = Some (Particle.vx (particle_at s i))
  /\ particleVelocities s !! (i * 2 + 1)%nat = Some (Particle.vy (particle_at s i)).
Proof.
  intros [Hp Hv] Hi. cbn. repeat split; apply aget_in_range; lia.
Qed.

Lemma split_index (d idx : nat) :
  (0 < d)%nat -> exists q r, idx = (q * d + r)%nat /\ (r < d)%nat.
Proof.
  intros Hd. exists (idx / d)%nat, (idx mod d)%nat. split.
  - pose proof (Nat.div_mod_eq idx d). lia.
  - apply Nat.mod_upper_bound. lia.
Qed.


(** ** Float32 numbers *)

Lemma pow2_pos (e : Z) : 0 < powerRZ 2 e.
Proof. apply powerRZ_lt. lra. Qed.

Lemma pow2_add (a b : Z) : powerRZ 2 (a + b) = powerRZ 2 a * powerRZ 2 b.
Proof. apply powerRZ_add. lra. Qed.

Lemma pow2_exp (e : Z) : powerRZ 2 e = exp (IZR e * ln 2).
Proof. rewrite powerRZ_Rpower by lra. reflexivity. Qed.

Lemma ln2_pos : 0 < ln 2.
Proof. rewrite <- ln_1. apply ln_increasing; lra. Qed.

Lemma pow2_lt (a b : Z) : (a < b)%Z -> powerRZ 2 a < powerRZ 2 b.
Proof.
  intros H. rewrite !pow2_exp. apply exp_increasing.
  apply Rmult_lt_compat_r; [apply ln2_pos | by apply IZR_lt].
Qed.

Lemma pow2_le (a b : Z) : (a <= b)%Z -> powerRZ 2 a <= powerRZ 2 b.
Proof.
  intros H. destruct (Z.eq_dec a b) as [-> | Hne]; [lra |].
  left. apply pow2_lt. lia.
Qed.

Lemma pow2_cancel (e : Z) : powerRZ 2 (- e) * powerRZ 2 e = 1.
Proof. rewrite <- pow2_add. replace (- e + e)%Z with 0%Z by lia. reflexivity. Qed.

Lemma pow2_IZR (k : Z) : (0 <= k)%Z -> powerRZ 2 k = IZR (2 ^ k).
Proof.
  intros H. rewrite <- (Z2Nat.id k H). rewrite <- pow_powerRZ, <- pow_IZR. reflexivity.
Qed.

(** The binade. *)


Lemma binade_lt (r : R) (k : Z) : 0 < Rabs r -> Rabs r < powerRZ 2 k -> (binade r < k)%Z.
Proof.
  intros Hr H.
  assert (Hl : ln (Rabs r) / ln 2 < IZR k).
  { apply Rmult_lt_reg_r with (ln 2); [apply ln2_pos |].
    unfold Rdiv. rewrite Rmult_assoc, Rinv_l by (pose proof ln2_pos; lra).
    rewrite Rmult_1_r.
    apply exp_lt_inv. rewrite exp_ln, <- pow2_exp by lra. exact H. }
  unfold binade. destruct (base_Int_part (ln (Rabs r) / ln 2)) as [Hd _].
  apply lt_IZR. lra.
Qed.

(** Rounding to the nearest integer. *)

Lemma nearest_even_cases (t : R) :
  nearest_even t = Int_part t \/ nearest_even t = (Int_part t + 1)%Z.
Proof.
  unfold nearest_even. cbv zeta.
  destruct Rlt_dec; [by left |]. destruct Rlt_dec; [by right |].
  destruct Z.even; [by left | by right].
Qed.

Lemma nearest_even_half (t : R) : Rabs (IZR (nearest_even t) - t) <= 1 / 2.
Proof.
  unfold nearest_even. destruct (base_Int_part t) as [Hl Hu].
  apply Rabs_le.
  destruct Rlt_dec as [H1 | H1]; [lra |].
  destruct Rlt_dec as [H2 | H2]; [rewrite plus_IZR; lra |].
  destruct Z.even; [| rewrite plus_IZR]; lra.
Qed.

Lemma nearest_even_le (t : R) (G : Z) : t <= IZR G -> (nearest_even t <= G)%Z.
Proof.
  intros H. destruct (base_Int_part t) as [Hl Hu].
  assert (Hf : (Int_part t <= G)%Z) by (apply le_IZR; lra).
  destruct (Z.eq_dec (Int_part t) G) as [E | Hne].
  - unfold nearest_even. rewrite E.
    destruct Rlt_dec as [H1 | H1]; [lia |]. lra.
  - destruct (nearest_even_cases t) as [-> | ->]; lia.
Qed.

Lemma nearest_even_ge (t : R) (G : Z) : IZR G <= t -> (G <= nearest_even t)%Z.
Proof.
  intros H. destruct (base_Int_part t) as [Hl Hu].
  assert (Hf : (G <= Int_part t)%Z).
  { assert (IZR G < IZR (Int_part t) + 1) by lra.
    rewrite <- plus_IZR in H0. apply lt_IZR in H0. lia. }
  destruct (nearest_even_cases t) as [-> | ->]; lia.
Qed.


Lemma nearest_even_below (t : R) (f : Z) :
  IZR f <= t < IZR f + 1 / 2 -> nearest_even t = f.
Proof.
  intros H. assert (E : Int_part t = f) by (symmetry; apply Int_part_spec; lra).
  unfold nearest_even. rewrite E.
  destruct Rlt_dec as [H1 | H1]; [reflexivity | lra].
Qed.

(** Rounding to float32. *)

Lemma round32_0 : round32 0 = 0.
Proof.
  unfold round32, Rsign. destruct (Rlt_dec 0 0); [lra |]. lra.
Qed.

Lemma Rsign_mult_abs (r : R) : Rsign r * Rabs r = r.
Proof.
  unfold Rsign, Rabs.
  destruct (Rlt_dec 0 r), (Rlt_dec r 0), (Rcase_abs r); lra.
Qed.

Lemma ulp_exponent_le (r : R) (k : Z) :
  r <> 0 -> Rabs r < powerRZ 2 (k + 24) -> (-149 <= k)%Z -> (ulp_exponent r <= k)%Z.
Proof.
  intros Hr H Hk. unfold ulp_exponent.
  assert (binade r < k + 24)%Z by (apply binade_lt; [by apply Rabs_pos_lt | exact H]).
  lia.
Qed.

Lemma scaled_nonneg (r : R) (e : Z) : 0 <= Rabs r * powerRZ 2 e.
Proof. pose proof (Rabs_pos r). pose proof (pow2_pos e). nra. Qed.

Lemma round32_abs (r : R) :
  r <> 0 ->
  Rabs (round32 r)
  = IZR (nearest_even (Rabs r * powerRZ 2 (- ulp_exponent r))) * powerRZ 2 (ulp_exponent r).
Proof.
  intros Hr. unfold round32. rewrite Rabs_mult, Rsign_abs by exact Hr.
  rewrite Rmult_1_l. apply Rabs_pos_eq.
  pose proof (pow2_pos (ulp_exponent r)).
  assert (0 <= nearest_even (Rabs r * powerRZ 2 (- ulp_exponent r)))%Z.
  { apply nearest_even_ge. apply scaled_nonneg. }
  apply IZR_le in H0. nra.
Qed.

(** Rounding does not cross a float32: if |r| <= N * 2^k, a multiple of the
    last place of r, then |round32 r| <= N * 2^k. *)
Lemma round32_le (r : R) (N k : Z) :
  Rabs r <= IZR N * powerRZ 2 k -> Rabs r < powerRZ 2 (k + 24) -> (-149 <= k)%Z ->
  Rabs (round32 r) <= IZR N * powerRZ 2 k.
Proof.
  intros Hle Hlt Hk. destruct (Req_dec r 0) as [-> | Hr].
  - rewrite round32_0. rewrite Rabs_R0 in *. exact Hle.
  - rewrite round32_abs by exact Hr.
    pose proof (ulp_exponent_le r k Hr Hlt Hk) as He.
    set (e := ulp_exponent r) in *.
    pose proof (pow2_pos e) as Hpe. pose proof (pow2_pos (- e)) as Hpne.
    assert (Hk' : powerRZ 2 k = IZR (2 ^ (k - e)) * powerRZ 2 e).
    { rewrite <- pow2_IZR by lia. rewrite <- pow2_add. f_equal. lia. }
    assert (Hq : (nearest_even (Rabs r * powerRZ 2 (- e)) <= N * 2 ^ (k - e))%Z).
    { apply nearest_even_le. rewrite mult_IZR.
      apply Rle_trans with (IZR N * powerRZ 2 k * powerRZ 2 (- e)).
      - apply Rmult_le_compat_r; lra.
      - rewrite Hk'. rewrite !Rmult_assoc. rewrite (Rmult_comm (powerRZ 2 e)), pow2_cancel. lra. }
    apply IZR_le in Hq. rewrite mult_IZR in Hq. rewrite Hk'.
    rewrite <- Rmult_assoc. apply Rmult_le_compat_r; lra.
Qed.

(** The rounding error is at most half a unit in the last place. *)
Lemma round32_error (r : R) (k : Z) :
  Rabs r < powerRZ 2 (k + 24) -> (-149 <= k)%Z ->
  Rabs (round32 r - r) <= powerRZ 2 k / 2.
Proof.
  intros Hlt Hk. pose proof (pow2_pos k) as Hpk.
  destruct (Req_dec r 0) as [-> | Hr].
  - rewrite round32_0, Rminus_diag, Rabs_R0. lra.
  - pose proof (ulp_exponent_le r k Hr Hlt Hk) as He.
    unfold round32. set (e := ulp_exponent r) in *.
    pose proof (pow2_pos e) as Hpe. pose proof (pow2_le e k He) as Hek.
    set (t := Rabs r * powerRZ 2 (- e)).
    assert (Ht : t * powerRZ 2 e = Rabs r).
    { unfold t. rewrite Rmult_assoc, pow2_cancel. lra. }
    replace (Rsign r * (IZR (nearest_even t) * powerRZ 2 e) - r)
      with (Rsign r * ((IZR (nearest_even t) - t) * powerRZ 2 e)).
    2:{ rewrite <- (Rsign_mult_abs r) at 3. rewrite <- Ht. ring. }
    rewrite !Rabs_mult, Rsign_abs by exact Hr.
    rewrite (Rabs_pos_eq (powerRZ 2 e)) by lra.
    pose proof (nearest_even_half t) as Hh.
    pose proof (Rabs_pos (IZR (nearest_even t) - t)). nra.
Qed.



(** The conversion of a store. *)

Lemma to_float32_Fin (r g : R) :
  Rabs (round32 r) <= g -> g < powerRZ 2 128 -> to_float32 (Fin r) = Fin (round32 r).
Proof.
  intros H Hg. unfold to_float32. destruct Rlt_dec as [_ | n]; [reflexivity |]. destruct n. lra.
Qed.


Lemma to_float32_0 : to_float32 (Fin 0) = Fin 0.
Proof.
  rewrite (to_float32_Fin 0 0), round32_0; [reflexivity | |].
  - rewrite round32_0, Rabs_R0. lra.
  - apply pow2_pos.
Qed.

(** *** The float32 numbers at the bound *)

Lemma pow2_23 : powerRZ 2 23 = 8388608.
Proof. rewrite pow2_IZR by lia. reflexivity. Qed.

Lemma pow2_neg (k : Z) (v : R) : powerRZ 2 k = v -> powerRZ 2 (- k) = / v.
Proof. intros <-. apply powerRZ_neg'. Qed.

Lemma pow2_m23 : powerRZ 2 (-23) = / 8388608.
Proof. apply (pow2_neg 23), pow2_23. Qed.



Lemma pow2_1 : powerRZ 2 1 = 2.
Proof. rewrite pow2_IZR by lia. reflexivity. Qed.

Lemma pow2_128_big : 4 < powerRZ 2 128.
Proof.
  apply Rle_lt_trans with (powerRZ 2 2); [| apply pow2_lt; lia].
  rewrite pow2_IZR by lia. cbn. lra.
Qed.



(** What a position inside the bound becomes in the array. *)
Lemma to_float32_bounded (r : R) (N : Z) :
  Rabs r <= IZR N / 8388608 -> Rabs r < 2 ->
  exists r' : R, to_float32 (Fin r) = Fin r' /\ Rabs r' <= IZR N / 8388608
                 /\ Rabs (r' - r) <= / 16777216.
Proof.
  intros H H2. exists (round32 r).
  assert (Hle : Rabs (round32 r) <= IZR N * powerRZ 2 (-23)).
  { apply round32_le; [rewrite pow2_m23; exact H | | lia].
    change (-23 + 24)%Z with 1%Z. rewrite pow2_1. exact H2. }
  assert (Herr : Rabs (round32 r - r) <= / 16777216).
  { pose proof (round32_error r (-23)) as He.
    change (-23 + 24)%Z with 1%Z in He. rewrite pow2_1, pow2_m23 in He.
    specialize (He H2 ltac:(lia)). lra. }
  split; [| split; [rewrite pow2_m23 in Hle; exact Hle | exact Herr]].
  apply (to_float32_Fin r 3); [| pose proof pow2_128_big; lra].
  pose proof (Rabs_triang (round32 r - r) r) as Ht.
  replace (round32 r - r + r) with (round32 r) in Ht by ring. lra.
Qed.




(** ** The loop of [animate32] as a map over the particles *)

Section Animate32Loop.
Variable rand : nat -> R.
Variables (P : PARAMS.t) (level : num) (act : bool).



End Animate32Loop.

Section Frame32.
Variable rand : nat -> R.


End Frame32.

(** ** The stages of the loop body, with infinite velocities *)







Lemma not_NaN_Fin (r : R) : not_NaN (Fin r).
Proof. done. Qed.






(** ** Positions stay finite and inside the domain *)



Section Containment32.
Variable rand : nat -> R.



End Containment32.




(** ** Idle damping *)

Lemma decay_bound (s0 : R) (n : nat) :
  0 <= s0 -> ln (s0 / 0.001) / ln (1 / 0.85) <= INR n -> 0.85 ^ n * s0 <= 0.001.
Proof.
  intros Hs Hn.
  destruct (Req_dec s0 0) as [-> | Hne]; [lra |].
  assert (Hs0 : 0 < s0) by lra.
  assert (Hl : 0 < ln (1 / 0.85)).
  { rewrite <- ln_1. apply ln_increasing; lra. }
  assert (Hle : ln (s0 / 0.001) <= INR n * ln (1 / 0.85)).
  { apply (Rmult_le_compat_r (ln (1 / 0.85))) in Hn; [| lra].
    unfold Rdiv in Hn at 1. rewrite Rmult_assoc, Rinv_l, Rmult_1_r in Hn by lra. exact Hn. }
  assert (He : s0 / 0.001 <= (1 / 0.85) ^ n).
  { rewrite <- (exp_ln (s0 / 0.001)) by (apply Rdiv_lt_0_compat; lra).
    rewrite <- Rpower_pow by lra. unfold Rpower.
    destruct Hle as [Hlt | ->]; [left; by apply exp_increasing | right; reflexivity]. }
  assert (Hone : (1 / 0.85) ^ n * 0.85 ^ n = 1).
  { rewrite <- Rpow_mult_distr. replace (1 / 0.85 * 0.85) with 1 by lra. apply pow1. }
  assert (Hp : 0 < 0.85 ^ n) by (apply pow_lt; lra).
  assert (s0 / 0.001 * 0.85 ^ n <= 1) by (rewrite <- Hone; nra).
  lra.
Qed.

Section IdleDamping.
Variable rand : nat -> R.

Lemma run_app (frames1 frames2 : list (PARAMS.t * audio.t)) (w : World) :
  run rand (frames1 ++ frames2) w = run rand frames2 (run rand frames1 w).
Proof. unfold run. apply fold_left_app. Qed.

Lemma animate_idle_particle (count : nat) (f : PARAMS.t * audio.t) (s : Store) (k i : nat)
    (x y vx vy : R) :
  sized count s -> (i < count)%nat -> idle_frame count f ->
  particle_at s i = Particle.mk (Fin x) (Fin y) (Fin vx) (Fin vy) ->
  exists s' k' (x' y' vx' vy' : R),
    animate rand (fst f) (snd f) (mkWorld (Some s) k) = mkWorld (Some s') k'
    /\ sized count s'
    /\ particle_at s' i = Particle.mk (Fin x') (Fin y') (Fin vx') (Fin vy')
    /\ sqrt (vx' * vx' + vy' * vy') <= 0.85 * sqrt (vx * vx + vy * vy)
    /\ (0.85 * sqrt (vx * vx + vy * vy) <= 0.001 -> vx' = 0 /\ vy' = 0).
Proof.
  intros Hsz Hi [Hc Hidle] Hp.
  destruct (animate_particle_at rand (fst f) (snd f) s k count Hsz Hc) as (s' & E & Hsz' & Hat & _).
  specialize (Hat i Hi). unfold stepped in Hat. rewrite Hidle, Hp in Hat.
  destruct (idle_step_shape (fst f) (audio.getAudioLevel (snd f))
              (rand (draw_index false k i)) x y vx vy)
    as (x' & y' & vx' & vy' & Est & _ & _ & Hsp & Hz).
  rewrite Est in Hat.
  exists s', (draw_index (isAudioActive (snd f)) k count), x', y', vx', vy'. auto.
Qed.

Lemma run_idle_speed (count i : nat) (frames : list (PARAMS.t * audio.t)) :
  Forall (idle_frame count) frames -> (i < count)%nat ->
  forall (s : Store) (k : nat) (x y vx vy : R),
    sized count s ->
    particle_at s i = Particle.mk (Fin x) (Fin y) (Fin vx) (Fin vy) ->
    exists s' k' (x' y' vx' vy' : R),
      run rand frames (mkWorld (Some s) k) = mkWorld (Some s') k'
      /\ sized count s'
      /\ particle_at s' i = Particle.mk (Fin x') (Fin y') (Fin vx') (Fin vy')
      /\ sqrt (vx' * vx' + vy' * vy') <= 0.85 ^ length frames * sqrt (vx * vx + vy * vy).
Proof.
  intros Hfr Hi. induction Hfr as [| f frames Hf Hfr IH]; intros s k x y vx vy Hsz Hp.
  - exists s, k, x, y, vx, vy. cbn. repeat split; try assumption; try apply Hsz. lra.
  - destruct (animate_idle_particle count f s k i x y vx vy Hsz Hi Hf Hp)
      as (s1 & k1 & x1 & y1 & vx1 & vy1 & E1 & Hsz1 & Hp1 & Hsp1 & _).
    destruct (IH s1 k1 x1 y1 vx1 vy1 Hsz1 Hp1)
      as (s' & k' & x' & y' & vx' & vy' & E & Hsz' & Hp' & Hsp').
    exists s', k', x', y', vx', vy'. cbn [run fold_left]. rewrite E1. fold (run rand frames).
    split; [exact E |]. split; [exact Hsz' |]. split; [exact Hp' |].
    cbn [length]. rewrite <- tech_pow_Rmult.
    assert (0 <= 0.85 ^ length frames) by (apply pow_le; lra).
    nra.
Qed.

(** C4: while audio is not active, the velocity of every particle becomes
    exactly (0, 0) after n frames as soon as n >= 1 and
    n >= ln(speed / 0.001) / ln(1 / 0.85), a number of frames that grows with
    the logarithm of the initial speed.  Each inactive step multiplies the
    velocity by 0.85, then by max(0.5, 1 - speed·2) if the speed is above
    0.001, and otherwise sets both components to 0 ([idle]), before the
    position update and the boundary reflection ([settle]). *)
Theorem idle_damping_convergence (count i : nat) (frames : list (PARAMS.t * audio.t))
    (s : Store) (k : nat) (x y vx vy : R) :
  sized count s -> (i < count)%nat ->
  particle_at s i = Particle.mk (Fin x) (Fin y) (Fin vx) (Fin vy) ->
  Forall (idle_frame count) frames ->
  (1 <= length frames)%nat ->
  ln (sqrt (vx * vx + vy * vy) / 0.001) / ln (1 / 0.85) <= INR (length frames) ->
  (exists s' k',
     run rand frames (mkWorld (Some s) k) = mkWorld (Some s') k'
     /\ particleVelocities s' !! (i * 2)%nat = Some (Fin 0)
     /\ particleVelocities s' !! (i * 2 + 1)%nat = Some (Fin 0))
  /\ (forall P level r,
        step_particle P level false r (particle_at s i) = settle x y (idle vx vy)).
Proof.
  intros Hsz Hi Hp Hfr Hlen Hlog. split; [| intros P level r; rewrite Hp; apply step_particle_idle].
  destruct frames as [| f0 frames0] using rev_ind; [cbn in Hlen; lia |]. clear IHframes0.
  apply Forall_app in Hfr as [Hfr Hlast]. apply Forall_inv in Hlast.
  destruct (run_idle_speed count i frames0 Hfr Hi s k x y vx vy Hsz Hp)
    as (s1 & k1 & x1 & y1 & vx1 & vy1 & E1 & Hsz1 & Hp1 & Hsp1).
  destruct (animate_idle_particle count f0 s1 k1 i x1 y1 vx1 vy1 Hsz1 Hi Hlast Hp1)
    as (s' & k' & x' & y' & vx' & vy' & E & Hsz' & Hp' & _ & Hz).
  exists s', k'. rewrite run_app, E1. cbn [run fold_left]. split; [exact E |].
  assert (Hdec : 0.85 ^ length (frames0 ++ [f0]) * sqrt (vx * vx + vy * vy) <= 0.001).
  { apply decay_bound; [apply sqrt_pos | exact Hlog]. }
  rewrite length_app, Nat.add_1_r in Hdec. rewrite <- tech_pow_Rmult in Hdec.
  destruct Hz as [-> ->]; [nra |].
  destruct (lookup_particle_at count s' i Hsz' Hi) as (_ & _ & L2 & L3).
  rewrite Hp' in L2, L3. auto.
Qed.
End IdleDamping.

Lemma frames_enough (s0 : R) (n : nat) :
  0 < s0 -> s0 <= 0.001 * (1 / 0.85) ^ n -> ln (s0 / 0.001) / ln (1 / 0.85) <= INR n.
Proof.
  intros Hs Hle.
  assert (Hl : 0 < ln (1 / 0.85)).
  { rewrite <- ln_1. apply ln_increasing; lra. }
  assert (Hln : ln (s0 / 0.001) <= INR n * ln (1 / 0.85)).
  { replace (INR n * ln (1 / 0.85)) with (ln ((1 / 0.85) ^ n)).
    - assert (Hq : s0 / 0.001 <= (1 / 0.85) ^ n).
      { revert Hle. generalize ((1 / 0.85) ^ n). intros X HX. lra. }
      destruct Hq as [Hlt | ->]; [left | right; reflexivity].
      apply ln_increasing; [apply Rdiv_lt_0_compat; lra | exact Hlt].
    - rewrite <- Rpower_pow by lra. unfold Rpower. apply ln_exp. }
  apply (Rmult_le_reg_r (ln (1 / 0.85))); [exact Hl |].
  unfold Rdiv at 1. rewrite Rmult_assoc, Rinv_l, Rmult_1_r by lra. exact Hln.
Qed.

Lemma idle_damping_convergence_witness :
  (exists s' k',
     run (fun _ => 0) (replicate 5 (PARAMS.mk 3 2 1 1 0.1 1, audio.mk false None))
       (mkWorld (Some (mkStore [Fin 0; Fin 0; Fin 0] [Fin 0.002; Fin 0])) 0)
       = mkWorld (Some s') k'
     /\ particleVelocities s' !! (0 * 2)%nat = Some (Fin 0)
     /\ particleVelocities s' !! (0 * 2 + 1)%nat = Some (Fin 0))
  /\ (forall P level r,
        step_particle P level false r
          (particle_at (mkStore [Fin 0; Fin 0; Fin 0] [Fin 0.002; Fin 0]) 0)
        = settle 0 0 (idle 0.002 0)).
Proof.
  apply (idle_damping_convergence (fun _ => 0) 1 0
           (replicate 5 (PARAMS.mk 3 2 1 1 0.1 1, audio.mk false None))).
  - split; reflexivity.
  - lia.
  - reflexivity.
  - repeat constructor.
  - cbn. lia.
  - replace (0.002 * 0.002 + 0 * 0) with (0.002 * 0.002) by ring.
    rewrite sqrt_square by lra.
    apply frames_enough; [lra |]. cbn [length replicate pow]. lra.
Defined.

(** ** Boundary reflection *)





(** ** Resizing the particle store *)

Section Resize.
Variable rand : nat -> R.

Lemma copy_loop_spec (cur new0 : Store) (c N O : nat) :
  sized N new0 -> sized O cur -> (c <= N)%nat -> (c <= O)%nat ->
  let new := for_loop 0 c (copy_particle cur) new0 in
  sized N new
  /\ (forall idx, (idx < c * 3)%nat -> particlePositions new !! idx = particlePositions cur !! idx)
  /\ (forall idx, (idx < c * 2)%nat -> particleVelocities new !! idx = particleVelocities cur !! idx).
Proof.
  intros Hn0 [Hcp Hcv] HcN HcO. induction c as [| c IH].
  - cbn. split; [exact Hn0 |]. split; intros idx Hidx; lia.
  - rewrite for_loop_S by lia. specialize (IH ltac:(lia) ltac:(lia)). cbv zeta in IH.
    destruct IH as ([Hp Hv] & IHp & IHv).
    set (new := for_loop 0 c (copy_particle cur) new0) in *.
    cbv zeta. unfold copy_particle. cbn [particlePositions particleVelocities].
    split; [split; cbn [particlePositions particleVelocities]; rewrite !length_aset;
            assumption |].
    split; intros idx Hidx.
    + destruct (decide (idx < c * 3)%nat) as [Hlt | Hge].
      * rewrite !lookup_aset_ne by lia. by apply IHp.
      * assert (Hr : idx = (c * 3)%nat \/ idx = (c * 3 + 1)%nat \/ idx = (c * 3 + 2)%nat) by lia.
        destruct Hr as [-> | [-> | ->]].
        -- rewrite !lookup_aset_ne, lookup_aset_eq by lia.
           rewrite (aget_in_range (particlePositions new)), (aget_in_range (particlePositions cur))
             by lia. reflexivity.
        -- rewrite lookup_aset_ne, lookup_aset_eq, lookup_aset_ne by lia.
           rewrite (aget_in_range (particlePositions new)), (aget_in_range (particlePositions cur))
             by lia. reflexivity.
        -- rewrite lookup_aset_eq, !lookup_aset_ne by lia.
           rewrite (aget_in_range (particlePositions new)), (aget_in_range (particlePositions cur))
             by lia. reflexivity.
    + destruct (decide (idx < c * 2)%nat) as [Hlt | Hge].
      * rewrite !lookup_aset_ne by lia. by apply IHv.
      * assert (Hr : idx = (c * 2)%nat \/ idx = (c * 2 + 1)%nat) by lia.
        destruct Hr as [-> | ->].
        -- rewrite lookup_aset_ne, lookup_aset_eq by lia.
           rewrite (aget_in_range (particleVelocities new)), (aget_in_range (particleVelocities cur))
             by lia. reflexivity.
        -- rewrite lookup_aset_eq, lookup_aset_ne by lia.
           rewrite (aget_in_range (particleVelocities new)), (aget_in_range (particleVelocities cur))
             by lia. reflexivity.
Qed.

Lemma spawn_loop_spec (cur new : Store) (pc lo d k N : nat) :
  sized N new ->
  let new' := fst (for_loop lo (lo + d) (spawn_particle rand cur pc) (new, k)) in
  sized N new'
  /\ (forall idx, (idx < lo * 3)%nat -> particlePositions new' !! idx = particlePositions new !! idx)
  /\ (forall idx, (idx < lo * 2)%nat -> particleVelocities new' !! idx = particleVelocities new !! idx).
Proof.
  intros Hsz. induction d as [| d IH].
  - rewrite for_loop_nil by lia. cbn. auto.
  - rewrite Nat.add_succ_r, for_loop_S by lia. cbv zeta in IH.
    destruct (for_loop lo (lo + d) (spawn_particle rand cur pc) (new, k)) as [new1 k1].
    cbn [fst] in IH. destruct IH as ([Hp Hv] & IHp & IHv).
    cbv zeta. cbn [spawn_particle fst particlePositions particleVelocities].
    split; [split; cbn [particlePositions particleVelocities]; rewrite !length_aset;
            assumption |].
    split; intros idx Hidx.
    + rewrite !lookup_aset_ne by lia. by apply IHp.
    + rewrite !lookup_aset_ne by lia. by apply IHv.
Qed.

Lemma take_eq_lookup (c : nat) (l1 l2 : list num) :
  (forall idx, (idx < c)%nat -> l1 !! idx = l2 !! idx) -> take c l1 = take c l2.
Proof.
  intros H. apply list_eq. intros idx.
  destruct (decide (idx < c)%nat).
  - rewrite !lookup_take_lt by lia. by apply H.
  - rewrite !lookup_take_ge by lia. reflexivity.
Qed.

(** C5: a resize from [oldCount] to [PARAMS.particles] particles keeps the
    first min(oldCount, newCount) particles as they were: the positions
    (three numbers each) and the velocities (two each) of that prefix are
    equal to those before the resize, and the new arrays hold newCount
    particles.  When shrinking, the new arrays are exactly that prefix of the
    old ones. *)
Theorem resize_preserves_prefix (P : PARAMS.t) (cur : Store) (k oldCount : nat) :
  sized oldCount cur ->
  exists new k',
    createParticles rand P (mkWorld (Some cur) k) = mkWorld (Some new) k'
    /\ sized (PARAMS.particles P) new
    /\ take (Nat.min oldCount (PARAMS.particles P) * 3) (particlePositions new)
       = take (Nat.min oldCount (PARAMS.particles P) * 3) (particlePositions cur)
    /\ take (Nat.min oldCount (PARAMS.particles P) * 2) (particleVelocities new)
       = take (Nat.min oldCount (PARAMS.particles P) * 2) (particleVelocities cur)
    /\ ((PARAMS.particles P <= oldCount)%nat ->
        particlePositions new = take (PARAMS.particles P * 3) (particlePositions cur)
        /\ particleVelocities new = take (PARAMS.particles P * 2) (particleVelocities cur)).
Proof.
  intros Hcur. pose proof Hcur as [Hcp Hcv].
  unfold createParticles. cbn [particles draws].
  rewrite Hcp, Nat.div_mul by lia.
  set (N := PARAMS.particles P). set (c := Nat.min oldCount N).
  set (new0 := mkStore (new_Float32Array (N * 3)) (new_Float32Array (N * 2))).
  assert (Hn0 : sized N new0).
  { split; cbn; apply length_replicate. }
  destruct (copy_loop_spec cur new0 c N oldCount Hn0 Hcur ltac:(lia) ltac:(lia))
    as (Hsz1 & Hp1 & Hv1).
  set (new1 := for_loop 0 c (copy_particle cur) new0) in *.
  pose proof (spawn_loop_spec cur new1 c c (N - c) k N Hsz1) as (Hsz2 & Hp2 & Hv2).
  replace (c + (N - c))%nat with N in * by lia.
  destruct (for_loop c N (spawn_particle rand cur c) (new1, k)) as [new k'].
  cbn [fst] in *. exists new, k'.
  assert (Tp : take (c * 3) (particlePositions new) = take (c * 3) (particlePositions cur)).
  { apply take_eq_lookup. intros idx Hidx. rewrite Hp2 by lia. by apply Hp1. }
  assert (Tv : take (c * 2) (particleVelocities new) = take (c * 2) (particleVelocities cur)).
  { apply take_eq_lookup. intros idx Hidx. rewrite Hv2 by lia. by apply Hv1. }
  split; [reflexivity |]. split; [exact Hsz2 |]. split; [exact Tp |]. split; [exact Tv |].
  intros Hshrink. replace c with N in * by lia. destruct Hsz2 as [Hlp Hlv].
  rewrite <- Tp, <- Tv. split; symmetry; apply take_ge; lia.
Qed.
End Resize.

Lemma resize_preserves_prefix_witness :
  (exists new k',
     createParticles (fun _ => 0.5) (PARAMS.mk 3 2 1 1 0.1 3)
       (mkWorld (Some (mkStore [Fin 0.1; Fin 0.2; Fin 0; Fin (-0.3); Fin 0.4; Fin 0]
                               [Fin 0.01; Fin 0; Fin 0; Fin (-0.02)])) 0)
       = mkWorld (Some new) k'
     /\ sized 3 new
     /\ take 6 (particlePositions new) = [Fin 0.1; Fin 0.2; Fin 0; Fin (-0.3); Fin 0.4; Fin 0]
     /\ take 4 (particleVelocities new) = [Fin 0.01; Fin 0; Fin 0; Fin (-0.02)])
  /\ (exists new k',
        createParticles (fun _ => 0.5) (PARAMS.mk 3 2 1 1 0.1 1)
          (mkWorld (Some (mkStore [Fin 0.1; Fin 0.2; Fin 0; Fin (-0.3); Fin 0.4; Fin 0]
                                  [Fin 0.01; Fin 0; Fin 0; Fin (-0.02)])) 0)
          = mkWorld (Some new) k'
        /\ particlePositions new = [Fin 0.1; Fin 0.2; Fin 0]
        /\ particleVelocities new = [Fin 0.01; Fin 0]).
Proof.
  split.
  - destruct (resize_preserves_prefix (fun _ => 0.5) (PARAMS.mk 3 2 1 1 0.1 3)
                (mkStore [Fin 0.1; Fin 0.2; Fin 0; Fin (-0.3); Fin 0.4; Fin 0]
                         [Fin 0.01; Fin 0; Fin 0; Fin (-0.02)]) 0 2)
      as (new & k' & E & Hsz & Tp & Tv & _); [split; reflexivity |].
    exists new, k'. split; [exact E |]. split; [exact Hsz |]. split; [exact Tp | exact Tv].
  - destruct (resize_preserves_prefix (fun _ => 0.5) (PARAMS.mk 3 2 1 1 0.1 1)
                (mkStore [Fin 0.1; Fin 0.2; Fin 0; Fin (-0.3); Fin 0.4; Fin 0]
                         [Fin 0.01; Fin 0; Fin 0; Fin (-0.02)]) 0 2)
      as (new & k' & E & _ & _ & _ & Hshrink); [split; reflexivity |].
    exists new, k'. split; [exact E |]. apply Hshrink. cbn. lia.
Defined.

(** ** The audio level *)













(** * Further properties of the integrator *)

(** ** What a frame touches *)

(** X1: a frame keeps the lengths of both arrays, never writes a z entry, leaves
    every particle from index [PARAMS.particles] on as it was, and consumes one
    draw per visited particle when audio is active and none otherwise. *)
Theorem animate_footprint (rand : nat -> R) (P : PARAMS.t) (a : audio.t) (s : Store) (k : nat) :
  exists s',
    animate rand P a (mkWorld (Some s) k)
      = mkWorld (Some s') (if isAudioActive a then (k + PARAMS.particles P)%nat else k)
    /\ length (particlePositions s') = length (particlePositions s)
    /\ length (particleVelocities s') = length (particleVelocities s)
    /\ (forall i, particlePositions s' !! (i * 3 + 2)%nat = particlePositions s !! (i * 3 + 2)%nat)
    /\ (forall i, (PARAMS.particles P <= i)%nat -> same_particle i s' s).
Proof.
  rewrite animate_unfold.
  set (level := audio.getAudioLevel a). set (act := isAudioActive a).
  pose proof (animate_loop_spec rand P level act s k (PARAMS.particles P)) as [_ Hspec].
  pose proof (animate_loop_length rand P level act s k (PARAMS.particles P)) as [Hl1 Hl2].
  cbv zeta in Hspec, Hl1, Hl2.
  set (s' := fst _) in *. exists s'.
  split; [reflexivity |]. split; [exact Hl1 |]. split; [exact Hl2 |]. split.
  - intros i. by destruct (Hspec i) as (_ & _ & H2 & _).
  - intros i Hi. destruct (Hspec i) as (H0 & H1 & _ & H3 & H4).
    unfold written in *. destruct (decide (i < PARAMS.particles P)%nat); [lia |].
    repeat split; assumption.
Qed.

(** ** Particles at rest *)

Lemma idle_rest : idle 0 0 = (0, 0).
Proof.
  apply idle_snap. replace (0 * 0 + 0 * 0) with 0 by ring. rewrite sqrt_0. lra.
Qed.

Lemma bounce_inside (c v : R) : Rabs c <= bound -> bounce c v = (c, v).
Proof. intros H. unfold bounce. destruct (Rlt_dec bound (Rabs c)); [lra | reflexivity]. Qed.

Lemma step_particle_rest (P : PARAMS.t) (level : num) (r x y : R) :
  Rabs x <= bound -> Rabs y <= bound ->
  step_particle P level false r (Particle.mk (Fin x) (Fin y) (Fin 0) (Fin 0))
  = Particle.mk (Fin x) (Fin y) (Fin 0) (Fin 0).
Proof.
  intros Hx Hy. rewrite step_particle_idle, idle_rest. unfold settle. cbn [fst snd].
  rewrite !Rplus_0_r, !bounce_inside by assumption. reflexivity.
Qed.

Lemma written_same (count i : nat) (v : num) (old : option num) :
  ((i < count)%nat -> old = Some v) -> written count i v old = old.
Proof.
  intros H. unfold written. destruct (decide (i < count)%nat); [| reflexivity].
  by rewrite (H l).
Qed.

(** X2: while audio is not active, a store whose particles all rest inside the
    bound is a fixed point of the frame: nothing moves and no draw is
    consumed. *)
Theorem rest_is_fixed (rand : nat -> R) (count : nat) (P : PARAMS.t) (a : audio.t)
    (s : Store) (k : nat) :
  sized count s -> PARAMS.particles P = count -> isAudioActive a = false ->
  (forall i, (i < count)%nat ->
     exists x y : R,
       particle_at s i = Particle.mk (Fin x) (Fin y) (Fin 0) (Fin 0)
       /\ Rabs x <= bound /\ Rabs y <= bound) ->
  animate rand P a (mkWorld (Some s) k) = mkWorld (Some s) k.
Proof.
  intros Hsz HP Hidle Hrest. rewrite animate_unfold, Hidle, HP. cbn [draw_index].
  do 2 f_equal.
  pose proof (animate_loop_spec rand P (audio.getAudioLevel a) false s k count) as [_ Hspec].
  cbv zeta in Hspec. set (s' := fst _) in *.
  assert (Hst : forall i, (i < count)%nat ->
            stepped rand P (audio.getAudioLevel a) false k s i = particle_at s i).
  { intros i Hi. destruct (Hrest i Hi) as (x & y & E & Hx & Hy).
    unfold stepped. rewrite E. by apply step_particle_rest. }
  assert (Hp : particlePositions s' = particlePositions s).
  { apply list_eq. intros idx.
    destruct (split_index 3 idx) as (q & r & -> & Hr); [lia |].
    destruct (Hspec q) as (H0 & H1 & H2 & _).
    assert (Hr' : r = 0%nat \/ r = 1%nat \/ r = 2%nat) by lia.
    destruct Hr' as [-> | [-> | ->]].
    - rewrite Nat.add_0_r, H0. apply written_same. intros Hq. rewrite (Hst q Hq).
      by destruct (lookup_particle_at count s q Hsz Hq) as (L & _).
    - rewrite H1. apply written_same. intros Hq. rewrite (Hst q Hq).
      by destruct (lookup_particle_at count s q Hsz Hq) as (_ & L & _).
    - exact H2. }
  assert (Hv : particleVelocities s' = particleVelocities s).
  { apply list_eq. intros idx.
    destruct (split_index 2 idx) as (q & r & -> & Hr); [lia |].
    destruct (Hspec q) as (_ & _ & _ & H3 & H4).
    assert (Hr' : r = 0%nat \/ r = 1%nat) by lia.
    destruct Hr' as [-> | ->].
    - rewrite Nat.add_0_r, H3. apply written_same. intros Hq. rewrite (Hst q Hq).
      by destruct (lookup_particle_at count s q Hsz Hq) as (_ & _ & L & _).
    - rewrite H4. apply written_same. intros Hq. rewrite (Hst q Hq).
      by destruct (lookup_particle_at count s q Hsz Hq) as (_ & _ & _ & L). }
  destruct s' as [p' v'], s as [p v]. cbn in Hp, Hv. by subst.
Qed.

Lemma rest_is_fixed_witness :
  animate (fun _ => 0) (PARAMS.mk 3 2 1 1 0.1 2) (audio.mk false None)
    (mkWorld (Some (mkStore [Fin 0.5; Fin (-1); Fin 0; Fin 0; Fin 1.19; Fin 0]
                            [Fin 0; Fin 0; Fin 0; Fin 0])) 7)
  = mkWorld (Some (mkStore [Fin 0.5; Fin (-1); Fin 0; Fin 0; Fin 1.19; Fin 0]
                           [Fin 0; Fin 0; Fin 0; Fin 0])) 7.
Proof.
  apply (rest_is_fixed (fun _ => 0) 2).
  - split; reflexivity.
  - reflexivity.
  - reflexivity.
  - intros i Hi. assert (Hc : i = 0%nat \/ i = 1%nat) by lia.
    destruct Hc as [-> | ->].
    + exists 0.5, (-1). split; [reflexivity |]. unfold bound. split; apply Rabs_le; lra.
    + exists 0, 1.19. split; [reflexivity |]. unfold bound. split; apply Rabs_le; lra.
Defined.

(** ** NaN in the particle state *)

Lemma nadd_NaN_r (a : num) : (a + NaN)%J = NaN.
Proof. by destruct a. Qed.

(** X3: an inactive step sets the velocity to zero when one of its components is
    NaN (the comparison [speed > 0.001] is false for NaN), whatever the
    position holds. *)
Theorem idle_step_clears_NaN_velocity (P : PARAMS.t) (level : num) (r : R) (p : Particle.t) :
  Particle.vx p = NaN \/ Particle.vy p = NaN ->
  Particle.vx (step_particle P level false r p) = Fin 0
  /\ Particle.vy (step_particle P level false r p) = Fin 0.
Proof.
  intros Hnan. unfold step_particle.
  assert (Hs : (Math_sqrt (Particle.vx p * 0.85 * (Particle.vx p * 0.85)
                           + Particle.vy p * 0.85 * (Particle.vy p * 0.85)))%J = NaN).
  { destruct Hnan as [-> | ->]; cbn [nmul nadd]; rewrite ?nadd_NaN_r; reflexivity. }
  cbv zeta. rewrite Hs. cbn [ngt].
  destruct (ngt (Math_abs (Particle.x p + 0)%J) _), (ngt (Math_abs (Particle.y p + 0)%J) _);
    cbn [Particle.vx Particle.vy nmul nneg]; split; try reflexivity; f_equal; lra.
Qed.

Lemma idle_step_clears_NaN_velocity_witness :
  Particle.vx (step_particle PARAMS.initial (Fin 0) false 0
                 (Particle.mk (Fin 0.3) PInf NaN (Fin 2))) = Fin 0
  /\ Particle.vy (step_particle PARAMS.initial (Fin 0) false 0
                 (Particle.mk (Fin 0.3) PInf NaN (Fin 2))) = Fin 0.
Proof.
  apply idle_step_clears_NaN_velocity. left. reflexivity.
Defined.

Lemma step_particle_NaN_x (P : PARAMS.t) (level : num) (act : bool) (r : R) (p : Particle.t) :
  Particle.x p = NaN -> Particle.x (step_particle P level act r p) = NaN.
Proof.
  intros H. unfold step_particle. rewrite H. cbv zeta.
  destruct act.
  - cbn [nadd Math_abs ngt]. by destruct (ngt _ _).
  - destruct (ngt (Math_sqrt _) _); cbn [nadd Math_abs ngt]; by destruct (ngt _ _).
Qed.

Lemma step_particle_NaN_y (P : PARAMS.t) (level : num) (act : bool) (r : R) (p : Particle.t) :
  Particle.y p = NaN -> Particle.y (step_particle P level act r p) = NaN.
Proof.
  intros H. unfold step_particle. rewrite H. cbv zeta.
  destruct act.
  - cbn [nadd Math_abs ngt]. by destruct (ngt _ _).
  - destruct (ngt (Math_sqrt _) _); cbn [nadd Math_abs ngt]; by destruct (ngt _ _).
Qed.

Section NaNPosition.
Variable rand : nat -> R.

Lemma animate_keeps_NaN_position (P : PARAMS.t) (a : audio.t) (s : Store) (k i c : nat) :
  (c < 2)%nat -> particlePositions s !! (i * 3 + c)%nat = Some NaN ->
  exists s' k',
    animate rand P a (mkWorld (Some s) k) = mkWorld (Some s') k'
    /\ particlePositions s' !! (i * 3 + c)%nat = Some NaN.
Proof.
  intros Hc E. rewrite animate_unfold.
  set (level := audio.getAudioLevel a). set (act := isAudioActive a).
  pose proof (animate_loop_spec rand P level act s k (PARAMS.particles P)) as [_ Hspec].
  cbv zeta in Hspec. set (s' := fst _) in *.
  exists s', (draw_index act k (PARAMS.particles P)). split; [reflexivity |].
  destruct (Hspec i) as (H0 & H1 & _).
  assert (Hcase : c = 0%nat \/ c = 1%nat) by lia.
  destruct Hcase as [-> | ->].
  - rewrite Nat.add_0_r in *. rewrite H0, E. unfold written.
    destruct (decide _); [| reflexivity].
    cbn. f_equal. apply step_particle_NaN_x. cbn. unfold aget. by rewrite E.
  - rewrite H1, E. unfold written. destruct (decide _); [| reflexivity].
    cbn. f_equal. apply step_particle_NaN_y. cbn. unfold aget. by rewrite E.
Qed.

(** X4: a NaN position coordinate is never repaired: whatever the frames do
    (active or not, any parameters), an x entry (c = 0) or a y entry (c = 1)
    that holds NaN still holds NaN after them; the boundary test, false for
    NaN, never resets it. *)
Theorem NaN_position_persists (frames : list (PARAMS.t * audio.t)) (s : Store) (k i c : nat) :
  (c < 2)%nat -> particlePositions s !! (i * 3 + c)%nat = Some NaN ->
  exists s' k',
    run rand frames (mkWorld (Some s) k) = mkWorld (Some s') k'
    /\ particlePositions s' !! (i * 3 + c)%nat = Some NaN.
Proof.
  intros Hc. revert s k. induction frames as [| [P a] frames IH]; intros s k E.
  - by exists s, k.
  - destruct (animate_keeps_NaN_position P a s k i c Hc E) as (s1 & k1 & E1 & Hn1).
    destruct (IH s1 k1 Hn1) as (s' & k' & E' & Hn').
    exists s', k'. cbn [run fold_left fst snd]. rewrite E1. fold (run rand frames).
    by split.
Qed.
End NaNPosition.

Lemma NaN_position_persists_witness :
  exists s' k',
    run (fun _ => 0.3)
      [(PARAMS.mk 3 2 1 1 0.1 1, audio.mk true (Some [Fin 0.5]));
       (PARAMS.mk 3 2 1 1 0.1 1, audio.mk false None)]
      (mkWorld (Some (mkStore [Fin 0.2; NaN; Fin 0] [Fin 0; Fin 0])) 0)
    = mkWorld (Some s') k'
    /\ particlePositions s' !! (0 * 3 + 1)%nat = Some NaN.
Proof.
  apply (NaN_position_persists (fun _ => 0.3)); [lia | reflexivity].
Defined.

(** ** Idle frames slow every particle down *)

(** X5: during a frame in which audio is not active, a finite particle stays
    finite, ends inside the domain square, and its speed drops to at most
    0.85 times what it was. *)
Theorem idle_frame_slows (rand : nat -> R) (count : nat) (P : PARAMS.t) (a : audio.t)
    (s : Store) (k i : nat) (x y vx vy : R) :
  sized count s -> PARAMS.particles P = count -> isAudioActive a = false ->
  (i < count)%nat ->
  particle_at s i = Particle.mk (Fin x) (Fin y) (Fin vx) (Fin vy) ->
  exists s' (x' y' vx' vy' : R),
    animate rand P a (mkWorld (Some s) k) = mkWorld (Some s') k
    /\ particle_at s' i = Particle.mk (Fin x') (Fin y') (Fin vx') (Fin vy')
    /\ Rabs x' <= half_size /\ Rabs y' <= half_size
    /\ sqrt (vx' * vx' + vy' * vy') <= 0.85 * sqrt (vx * vx + vy * vy).
Proof.
  intros Hsz HP Hidle Hi Hp.
  destruct (animate_particle_at rand P a s k count Hsz HP) as (s' & E & _ & Hat & _).
  specialize (Hat i Hi). unfold stepped in Hat. rewrite Hidle, Hp in Hat.
  rewrite Hidle in E. cbn [draw_index] in E.
  destruct (idle_step_shape P (audio.getAudioLevel a) (rand (draw_index false k i)) x y vx vy)
    as (x' & y' & vx' & vy' & Est & Hx & Hy & Hsp & _).
  rewrite Est in Hat. exists s', x', y', vx', vy'.
  unfold bound in Hx, Hy. unfold half_size.
  split; [exact E |]. split; [exact Hat |].
  split; [lra |]. split; [lra | exact Hsp].
Qed.

Lemma idle_frame_slows_witness :
  exists s' (x' y' vx' vy' : R),
    animate (fun _ => 0) (PARAMS.mk 3 2 1 1 0.1 1) (audio.mk false None)
      (mkWorld (Some (mkStore [Fin 1.1; Fin 0; Fin 0] [Fin 0.3; Fin (-0.4)])) 0)
    = mkWorld (Some s') 0
    /\ particle_at s' 0 = Particle.mk (Fin x') (Fin y') (Fin vx') (Fin vy')
    /\ Rabs x' <= half_size /\ Rabs y' <= half_size
    /\ sqrt (vx' * vx' + vy' * vy') <= 0.85 * sqrt (0.3 * 0.3 + -0.4 * -0.4).
Proof.
  apply (idle_frame_slows (fun _ => 0) 1 _ _ _ 0 0 1.1 0 0.3 (-0.4)); try reflexivity.
  - split; reflexivity.
  - lia.
Defined.

(** * Further properties of [createParticles] *)

Section Creation.
Variable rand : nat -> R.

Lemma new_store_sized (N : nat) :
  sized N (mkStore (new_Float32Array (N * 3)) (new_Float32Array (N * 2))).
Proof. split; cbn; apply length_replicate. Qed.

Lemma lookup_aset_in (a : list num) (i : nat) (v : num) :
  (i < length a)%nat -> aset a i v !! i = Some v.
Proof.
  intros H. rewrite lookup_aset_eq. by destruct (lookup_lt_is_Some_2 a i H) as [u ->].
Qed.

(** The first-creation loop after [c] iterations. *)
Lemma init_loop_spec (new0 : Store) (N k c : nat) :
  sized N new0 -> (c <= N)%nat ->
  let st := for_loop 0 c (init_particle rand) (new0, k) in
  snd st = (k + 2 * c)%nat
  /\ sized N (fst st)
  /\ forall i, (i < c)%nat ->
       particle_at (fst st) i
         = Particle.mk ((Fin (rand (k + 2 * i)) - 0.5) * PLANE_SIZE)%J
                       ((Fin (rand (k + 2 * i + 1)) - 0.5) * PLANE_SIZE)%J (Fin 0) (Fin 0)
       /\ particlePositions (fst st) !! (i * 3 + 2)%nat = Some (Fin 0).
Proof.
  intros Hsz Hc. induction c as [| c IH].
  - cbn. split; [lia |]. split; [exact Hsz |]. intros i Hi. lia.
  - rewrite for_loop_S by lia. specialize (IH ltac:(lia)). cbv zeta in IH.
    destruct (for_loop 0 c (init_particle rand) (new0, k)) as [s1 k1].
    cbn [fst snd] in IH. destruct IH as (-> & [Hp Hv] & IH).
    cbv zeta. cbn [init_particle fst snd].
    split; [lia |]. split.
    { split; cbn [particlePositions particleVelocities]; rewrite !length_aset; assumption. }
    intros i Hi. unfold particle_at, aget. cbn [particlePositions particleVelocities].
    destruct (decide (i = c)) as [-> | Hne].
    + rewrite (lookup_aset_ne _ (c * 3 + 2) (c * 3)), (lookup_aset_ne _ (c * 3 + 1) (c * 3)) by lia.
      rewrite (lookup_aset_in _ (c * 3)) by lia.
      rewrite (lookup_aset_ne _ (c * 3 + 2) (c * 3 + 1)) by lia.
      rewrite (lookup_aset_in _ (c * 3 + 1)) by (rewrite length_aset; lia).
      rewrite (lookup_aset_in _ (c * 3 + 2)) by (rewrite !length_aset; lia).
      rewrite (lookup_aset_ne _ (c * 2 + 1) (c * 2)) by lia.
      rewrite (lookup_aset_in _ (c * 2)) by lia.
      rewrite (lookup_aset_in _ (c * 2 + 1)) by (rewrite length_aset; lia).
      split; reflexivity.
    + destruct (IH i ltac:(lia)) as [E Ez].
      rewrite !lookup_aset_ne by lia. split; [exact E | exact Ez].
Qed.

(** The store of the first [createParticles], before the conversion of the
    entries. *)
Lemma createParticles_first (P : PARAMS.t) (k : nat) :
  exists new,
    createParticles rand P (mkWorld None k)
      = mkWorld (Some new) (k + 2 * PARAMS.particles P)
    /\ sized (PARAMS.particles P) new
    /\ forall i, (i < PARAMS.particles P)%nat ->
         particle_at new i
           = Particle.mk (Fin ((rand (k + 2 * i) - 0.5) * 2.4))
                         (Fin ((rand (k + 2 * i + 1) - 0.5) * 2.4)) (Fin 0) (Fin 0)
         /\ particlePositions new !! (i * 3 + 2)%nat = Some (Fin 0).
Proof.
  unfold createParticles. cbn [particles draws].
  set (N := PARAMS.particles P).
  pose proof (init_loop_spec _ N k N (new_store_sized N) ltac:(lia)) as (Hk & Hsz & Hat).
  cbv zeta in Hk, Hsz, Hat.
  destruct (for_loop 0 N (init_particle rand) _) as [new k'].
  cbn [fst snd] in *. subst k'. exists new.
  split; [reflexivity |]. split; [exact Hsz |].
  intros i Hi. destruct (Hat i Hi) as [E Ez]. split; [| exact Ez]. rewrite E. reflexivity.
Qed.

(** X7: [createParticles] with an unchanged particle count rebuilds the same
    store and consumes no draw. *)
Theorem resize_same_count (P : PARAMS.t) (cur : Store) (k : nat) :
  sized (PARAMS.particles P) cur ->
  createParticles rand P (mkWorld (Some cur) k) = mkWorld (Some cur) k.
Proof.
  intros Hcur. pose proof Hcur as [Hcp Hcv].
  unfold createParticles. cbn [particles draws].
  rewrite Hcp, Nat.div_mul, Nat.min_id by lia.
  set (N := PARAMS.particles P) in *.
  destruct (copy_loop_spec cur _ N N N (new_store_sized N) Hcur ltac:(lia) ltac:(lia))
    as ([Hp Hv] & Lp & Lv).
  set (new1 := for_loop 0 N (copy_particle cur) _) in *.
  rewrite for_loop_nil by lia. f_equal. f_equal.
  assert (Ep : particlePositions new1 = particlePositions cur).
  { apply list_eq. intros idx. destruct (decide (idx < N * 3)%nat); [by apply Lp |].
    rewrite !lookup_ge_None_2 by lia. reflexivity. }
  assert (Ev : particleVelocities new1 = particleVelocities cur).
  { apply list_eq. intros idx. destruct (decide (idx < N * 2)%nat); [by apply Lv |].
    rewrite !lookup_ge_None_2 by lia. reflexivity. }
  destruct new1, cur. cbn in Ep, Ev. by subst.
Qed.
End Creation.

Lemma resize_same_count_witness :
  createParticles (fun _ => 0.25) (PARAMS.mk 3 2 1 1 0.1 2)
    (mkWorld (Some (mkStore [Fin 0.1; Fin 0.2; Fin 0; Fin (-0.3); Fin 0.4; Fin 0]
                            [Fin 0.01; Fin 0; Fin 0; Fin (-0.02)])) 5)
  = mkWorld (Some (mkStore [Fin 0.1; Fin 0.2; Fin 0; Fin (-0.3); Fin 0.4; Fin 0]
                           [Fin 0.01; Fin 0; Fin 0; Fin (-0.02)])) 5.
Proof.
  apply (resize_same_count (fun _ => 0.25) (PARAMS.mk 3 2 1 1 0.1 2)).
  split; reflexivity.
Defined.

Section Growth.
Variable rand : nat -> R.

Lemma aget_Some (a : list num) (i : nat) (v : num) : a !! i = Some v -> aget a i = v.
Proof. unfold aget. by intros ->. Qed.

Lemma spawn_loop_entries (cur new : Store) (pc lo d k N : nat) :
  sized N new -> (lo + d <= N)%nat ->
  let st := for_loop lo (lo + d) (spawn_particle rand cur pc) (new, k) in
  snd st = (k + 3 * d)%nat
  /\ sized N (fst st)
  /\ forall i, (lo <= i < lo + d)%nat ->
       particle_at (fst st) i = spawned rand cur pc (k + 3 * (i - lo))
       /\ particlePositions (fst st) !! (i * 3 + 2)%nat = Some (Fin 0).
Proof.
  intros Hsz Hd. induction d as [| d IH].
  - rewrite for_loop_nil by lia. cbn. split; [lia |]. split; [exact Hsz |]. intros i Hi. lia.
  - rewrite Nat.add_succ_r, for_loop_S by lia. specialize (IH ltac:(lia)). cbv zeta in IH.
    destruct (for_loop lo (lo + d) (spawn_particle rand cur pc) (new, k)) as [s1 k1].
    cbn [fst snd] in IH. destruct IH as (-> & [Hp Hv] & IH).
    cbv zeta. cbn [spawn_particle fst snd].
    split; [lia |]. split.
    { split; cbn [particlePositions particleVelocities]; rewrite !length_aset; assumption. }
    intros i Hi. cbn [particlePositions particleVelocities].
    destruct (decide (i = lo + d)%nat) as [-> | Hne].
    + replace (lo + d - lo)%nat with d by lia. split.
      * unfold particle_at, spawned. cbn [particlePositions particleVelocities].
        f_equal; apply aget_Some.
        -- rewrite !lookup_aset_ne by lia. apply lookup_aset_in. lia.
        -- rewrite lookup_aset_ne by lia. apply lookup_aset_in. rewrite length_aset. lia.
        -- rewrite lookup_aset_ne by lia. apply lookup_aset_in. lia.
        -- apply lookup_aset_in. rewrite length_aset. lia.
      * apply lookup_aset_in. rewrite !length_aset. lia.
    + destruct (IH i ltac:(lia)) as [E Ez]. split.
      * rewrite <- E. unfold particle_at. cbn [particlePositions particleVelocities].
        f_equal; apply aget_lookup; rewrite !lookup_aset_ne by lia; reflexivity.
      * rewrite !lookup_aset_ne by lia. exact Ez.
Qed.

Lemma floor_index_lt (r : R) (n : nat) :
  0 <= r < 1 -> (1 <= n)%nat -> (Math_floor_index (r * INR n) < n)%nat.
Proof.
  intros [H0 H1] Hn. unfold Math_floor_index.
  assert (Hpos : 0 < INR n) by (apply lt_0_INR; lia).
  destruct (base_Int_part (r * INR n)) as [Hle Hgt].
  assert (Hprod : 0 <= r * INR n < INR n) by nra.
  assert (Hlo : (-1 < Int_part (r * INR n))%Z) by (apply lt_IZR; lra).
  assert (Hhi : (Int_part (r * INR n) < Z.of_nat n)%Z).
  { apply lt_IZR. rewrite <- INR_IZR_INZ. lra. }
  lia.
Qed.

(** The particles that a growing [createParticles] adds, before the
    conversion of the entries. *)
Lemma createParticles_growth (P : PARAMS.t) (cur : Store) (k oldCount : nat) :
  sized oldCount cur -> (oldCount <= PARAMS.particles P)%nat ->
  exists new,
    createParticles rand P (mkWorld (Some cur) k)
      = mkWorld (Some new) (k + 3 * (PARAMS.particles P - oldCount))
    /\ sized (PARAMS.particles P) new
    /\ forall i, (oldCount <= i < PARAMS.particles P)%nat ->
         particle_at new i = spawned rand cur oldCount (k + 3 * (i - oldCount))
         /\ particlePositions new !! (i * 3 + 2)%nat = Some (Fin 0).
Proof.
  intros Hcur Hcount. pose proof Hcur as [Hcp Hcv].
  unfold createParticles. cbn [particles draws].
  rewrite Hcp, Nat.div_mul by lia.
  set (N := PARAMS.particles P) in *.
  replace (Nat.min oldCount N) with oldCount by lia.
  destruct (copy_loop_spec cur _ oldCount N oldCount (new_store_sized N) Hcur
              ltac:(lia) ltac:(lia)) as (Hsz1 & _ & _).
  set (new1 := for_loop 0 oldCount (copy_particle cur) _) in *.
  pose proof (spawn_loop_entries cur new1 oldCount oldCount (N - oldCount) k N Hsz1
                ltac:(lia)) as (Hk & Hsz & Hat).
  replace (oldCount + (N - oldCount))%nat with N in * by lia. cbv zeta in Hk, Hsz, Hat.
  destruct (for_loop oldCount N (spawn_particle rand cur oldCount) (new1, k)) as [new k'].
  cbn [fst snd] in *. subst k'. exists new. split; [reflexivity |]. split; [exact Hsz |].
  exact Hat.
Qed.

(** X9: growing an empty store (no particle to copy from): the source read is
    past the end of the old arrays, so every added particle gets NaN for x,
    y, vx and vy. *)
Theorem growth_from_empty (P : PARAMS.t) (cur : Store) (k : nat) :
  sized 0 cur ->
  exists new,
    createParticles rand P (mkWorld (Some cur) k)
      = mkWorld (Some new) (k + 3 * PARAMS.particles P)
    /\ forall i, (i < PARAMS.particles P)%nat ->
         particle_at new i = Particle.mk NaN NaN NaN NaN.
Proof.
  intros Hcur. pose proof Hcur as [Hcp Hcv].
  unfold createParticles. cbn [particles draws].
  rewrite Hcp. cbn [Nat.mul Nat.div Nat.divmod fst Nat.min].
  set (N := PARAMS.particles P) in *.
  rewrite (for_loop_nil 0 0) by lia.
  pose proof (spawn_loop_entries cur _ 0 0 N k N (new_store_sized N) ltac:(lia))
    as (Hk & _ & Hat).
  cbn [Nat.add] in Hk, Hat. cbv zeta in Hk, Hat.
  destruct (for_loop 0 N (spawn_particle rand cur 0) _) as [new k'].
  cbn [fst snd] in *. subst k'. exists new. split; [reflexivity |].
  intros i Hi. destruct (Hat i ltac:(lia)) as [E _]. rewrite E.
  unfold spawned, aget.
  rewrite !lookup_ge_None_2 by lia. reflexivity.
Qed.
End Growth.

Lemma growth_from_empty_witness :
  exists new,
    createParticles (fun _ => 0.25) (PARAMS.mk 3 2 1 1 0.1 2) (mkWorld (Some (mkStore [] [])) 0)
      = mkWorld (Some new) (0 + 3 * 2)
    /\ forall i, (i < 2)%nat -> particle_at new i = Particle.mk NaN NaN NaN NaN.
Proof.
  apply (growth_from_empty (fun _ => 0.25) (PARAMS.mk 3 2 1 1 0.1 2) (mkStore [] []) 0).
  split; reflexivity.
Defined.

(** ** [createParticles] on [Float32Array]s *)

Lemma fmap_aset (a : list num) (i : nat) (v : num) :
  to_float32 <$> aset a i v = aset32 (to_float32 <$> a) i v.
Proof. unfold aset32, aset. apply list_fmap_insert. Qed.

Lemma for_loop_map {S T : Type} (f : S -> T) (b : nat -> S -> S) (b' : nat -> T -> T)
    (lo hi : nat) (s : S) :
  (forall i s, b' i (f s) = f (b i s)) ->
  for_loop lo hi b' (f s) = f (for_loop lo hi b s).
Proof.
  intros H. unfold for_loop. generalize (seq lo (hi - lo)). intros l. revert s.
  induction l as [| i l IH]; intros s; [reflexivity |].
  cbn [fold_left]. rewrite H. apply IH.
Qed.

Section Round.
Variable rand : nat -> R.

Lemma copy_particle32_round (cur : Store) (i : nat) (new : Store) :
  copy_particle32 cur i (round_store new) = round_store (copy_particle cur i new).
Proof.
  unfold copy_particle32, copy_particle, round_store.
  cbn [particlePositions particleVelocities]. by rewrite !fmap_aset.
Qed.

Lemma spawn_particle32_round (cur : Store) (pc i : nat) (st : Store * nat) :
  spawn_particle32 rand cur pc i (round_state st) = round_state (spawn_particle rand cur pc i st).
Proof.
  destruct st as [new k]. unfold spawn_particle32, spawn_particle, round_state, round_store.
  cbn [fst snd particlePositions particleVelocities]. by rewrite !fmap_aset.
Qed.

Lemma init_particle32_round (i : nat) (st : Store * nat) :
  init_particle32 rand i (round_state st) = round_state (init_particle rand i st).
Proof.
  destruct st as [new k]. unfold init_particle32, init_particle, round_state, round_store.
  cbn [fst snd particlePositions particleVelocities]. by rewrite !fmap_aset.
Qed.

Lemma round_new_store (N : nat) :
  round_store (mkStore (new_Float32Array (N * 3)) (new_Float32Array (N * 2)))
  = mkStore (new_Float32Array (N * 3)) (new_Float32Array (N * 2)).
Proof.
  unfold round_store, new_Float32Array. cbn [particlePositions particleVelocities].
  by rewrite !fmap_replicate, to_float32_0.
Qed.

(** [createParticles] on [Float32Array]s builds the store of [createParticles]
    with every entry converted: no iteration reads what another wrote. *)
Lemma createParticles32_round (P : PARAMS.t) (w : World) :
  createParticles32 rand P w = round_world (createParticles rand P w).
Proof.
  unfold createParticles32, createParticles, round_world.
  set (N := PARAMS.particles P).
  pose proof (round_new_store N) as Hn. set (new := mkStore _ _) in *.
  destruct (particles w) as [cur |].
  - set (pc := Nat.min _ _).
    assert (E1 : for_loop 0 pc (copy_particle32 cur) new
                 = round_store (for_loop 0 pc (copy_particle cur) new)).
    { rewrite <- Hn at 1. apply for_loop_map. intros. apply copy_particle32_round. }
    rewrite E1.
    change (round_store ?s, draws w) with (round_state (s, draws w)).
    rewrite (for_loop_map round_state (spawn_particle rand cur pc) (spawn_particle32 rand cur pc))
      by (intros; apply spawn_particle32_round).
    by destruct (for_loop pc N _ _).
  - assert (E1 : for_loop 0 N (init_particle32 rand) (new, draws w)
                 = round_state (for_loop 0 N (init_particle rand) (new, draws w))).
    { rewrite <- Hn at 1. change (round_store new, draws w) with (round_state (new, draws w)).
      apply for_loop_map. intros. apply init_particle32_round. }
    rewrite E1. clear E1. by destruct (for_loop 0 N _ _).
Qed.
End Round.

Lemma aget_round (a : list num) (i : nat) : aget (to_float32 <$> a) i = to_float32 (aget a i).
Proof. unfold aget. rewrite list_lookup_fmap. by destruct (a !! i). Qed.

Lemma particle_at_round (s : Store) (i : nat) :
  particle_at (round_store s) i = stored (particle_at s i).
Proof.
  unfold particle_at, stored, round_store.
  cbn [particlePositions particleVelocities Particle.x Particle.y Particle.vx Particle.vy].
  by rewrite !aget_round.
Qed.

Lemma sized_round (count : nat) (s : Store) : sized count s -> sized count (round_store s).
Proof. intros [Hp Hv]. split; cbn; by rewrite length_fmap. Qed.

Lemma Rabs_le_between (x a : R) : Rabs x <= a -> - a <= x <= a.
Proof.
  intros H. pose proof (Rle_abs x). pose proof (Rle_abs (- x)) as Hn.
  rewrite Rabs_Ropp in Hn. lra.
Qed.

Lemma to_float32_near (r : R) :
  Rabs r <= 1.3 ->
  exists r' : R, to_float32 (Fin r) = Fin r' /\ Rabs (r' - r) <= / 10000000.
Proof.
  intros H. destruct (to_float32_bounded r 16777215) as (r' & E & _ & He); [lra | lra |].
  exists r'. split; [exact E | lra].
Qed.

Section Creation32.
Variable rand : nat -> R.

(** X6: the first [createParticles] (no particle system yet) builds a store of
    [PARAMS.particles] particles and consumes two draws per particle.  Every
    particle has zero velocity and z = 0; its x and y entries are the float32
    of (r1 - 0.5)·PLANE_SIZE and (r2 - 0.5)·PLANE_SIZE for two consecutive
    draws r1, r2: within 1e-7 of them and, for draws in [0,1), at most the
    float32 of PLANE_SIZE/2 (1.2000000476837158) in absolute value. *)
Theorem first_creation (P : PARAMS.t) (k : nat) :
  (forall j, 0 <= rand j < 1) ->
  exists new,
    createParticles32 rand P (mkWorld None k)
      = mkWorld (Some new) (k + 2 * PARAMS.particles P)
    /\ sized (PARAMS.particles P) new
    /\ contained half_size32 (PARAMS.particles P) new
    /\ forall i, (i < PARAMS.particles P)%nat ->
         exists x y : R,
           particle_at new i = Particle.mk (Fin x) (Fin y) (Fin 0) (Fin 0)
           /\ Rabs (x - (rand (k + 2 * i) - 0.5) * 2.4) <= / 10000000
           /\ Rabs (y - (rand (k + 2 * i + 1) - 0.5) * 2.4) <= / 10000000
           /\ particlePositions new !! (i * 3 + 2)%nat = Some (Fin 0).
Proof.
  intros Hr. rewrite createParticles32_round.
  destruct (createParticles_first rand P k) as (new & -> & Hsz & Hat).
  exists (round_store new). split; [reflexivity |].
  pose proof (sized_round _ _ Hsz) as Hsz'. split; [exact Hsz' |].
  assert (Hpart : forall i, (i < PARAMS.particles P)%nat ->
            exists x y : R,
              particle_at (round_store new) i = Particle.mk (Fin x) (Fin y) (Fin 0) (Fin 0)
              /\ Rabs (x - (rand (k + 2 * i) - 0.5) * 2.4) <= / 10000000
              /\ Rabs (y - (rand (k + 2 * i + 1) - 0.5) * 2.4) <= / 10000000
              /\ Rabs x <= half_size32 /\ Rabs y <= half_size32).
  { intros i Hi. destruct (Hat i Hi) as [E _].
    rewrite particle_at_round, E. unfold stored.
    cbn [Particle.x Particle.y Particle.vx Particle.vy]. rewrite to_float32_0.
    pose proof (Hr (k + 2 * i)%nat) as H1. pose proof (Hr (k + 2 * i + 1)%nat) as H2.
    destruct (to_float32_bounded ((rand (k + 2 * i) - 0.5) * 2.4) 10066330)
      as (x & -> & Hx & Hex); [apply Rabs_le; lra | apply Rabs_def1; lra |].
    destruct (to_float32_bounded ((rand (k + 2 * i + 1) - 0.5) * 2.4) 10066330)
      as (y & -> & Hy & Hey); [apply Rabs_le; lra | apply Rabs_def1; lra |].
    exists x, y. split; [reflexivity |]. unfold half_size32.
    repeat split; try assumption; lra. }
  split.
  - intros i Hi. destruct (Hpart i Hi) as (x & y & E & _ & _ & Hx & Hy).
    destruct (lookup_particle_at _ _ i Hsz' Hi) as (L0 & L1 & _).
    rewrite E in L0, L1. by exists x, y.
  - intros i Hi. destruct (Hpart i Hi) as (x & y & E & Hex & Hey & _).
    exists x, y. split; [exact E |]. split; [exact Hex |]. split; [exact Hey |].
    destruct (Hat i Hi) as [_ Ez]. cbn [round_store particlePositions].
    rewrite list_lookup_fmap, Ez. cbn [fmap option_fmap option_map]. by rewrite to_float32_0.
Qed.

(** X8: growing a store of [oldCount >= 1] particles that lie in the domain
    square (up to the float32 of PLANE_SIZE/2): every added particle is made
    from one of the old particles; its x and y entries are within
    0.05 + 1e-7 of that particle's, its z entry is 0 and its velocity entries
    are the float32 of half that particle's velocity; three draws are
    consumed per added particle. *)
Theorem growth_near_existing (P : PARAMS.t) (cur : Store) (k oldCount : nat) :
  (forall j, 0 <= rand j < 1) ->
  sized oldCount cur -> contained half_size32 oldCount cur ->
  (1 <= oldCount <= PARAMS.particles P)%nat ->
  exists new,
    createParticles32 rand P (mkWorld (Some cur) k)
      = mkWorld (Some new) (k + 3 * (PARAMS.particles P - oldCount))
    /\ sized (PARAMS.particles P) new
    /\ forall i, (oldCount <= i < PARAMS.particles P)%nat ->
         exists (src : nat) (xs ys x' y' : R),
           (src < oldCount)%nat
           /\ Particle.x (particle_at cur src) = Fin xs
           /\ Particle.y (particle_at cur src) = Fin ys
           /\ Particle.x (particle_at new i) = Fin x'
           /\ Particle.y (particle_at new i) = Fin y'
           /\ Rabs (x' - xs) <= 0.05 + / 10000000
           /\ Rabs (y' - ys) <= 0.05 + / 10000000
           /\ Particle.vx (particle_at new i)
              = to_float32 (Particle.vx (particle_at cur src) * 0.5)%J
           /\ Particle.vy (particle_at new i)
              = to_float32 (Particle.vy (particle_at cur src) * 0.5)%J
           /\ particlePositions new !! (i * 3 + 2)%nat = Some (Fin 0).
Proof.
  intros Hr Hcur Hc Hcount. rewrite createParticles32_round.
  destruct (createParticles_growth rand P cur k oldCount Hcur ltac:(lia)) as (new & -> & Hsz & Hat).
  exists (round_store new). split; [reflexivity |]. split; [by apply sized_round |].
  intros i Hi. destruct (Hat i Hi) as [E Ez].
  set (kb := (k + 3 * (i - oldCount))%nat) in *.
  set (src := Math_floor_index (rand kb * INR oldCount)).
  assert (Hsrc : (src < oldCount)%nat) by (apply floor_index_lt; [apply Hr | lia]).
  destruct (Hc src Hsrc) as (xs & ys & L0 & L1 & Hxs & Hys).
  assert (Ex : aget (particlePositions cur) (src * 3) = Fin xs) by (by apply aget_Some).
  assert (Ey : aget (particlePositions cur) (src * 3 + 1) = Fin ys) by (by apply aget_Some).
  pose proof (Hr (kb + 1)%nat) as H1. pose proof (Hr (kb + 2)%nat) as H2.
  unfold half_size32 in Hxs, Hys.
  apply Rabs_le_between in Hxs as Hxs'. apply Rabs_le_between in Hys as Hys'.
  destruct (to_float32_near (xs + (rand (kb + 1) + - (0.5)) * 0.1)) as (x' & Ex' & Hx');
    [apply Rabs_le; lra |].
  destruct (to_float32_near (ys + (rand (kb + 2) + - (0.5)) * 0.1)) as (y' & Ey' & Hy');
    [apply Rabs_le; lra |].
  exists src, xs, ys, x', y'.
  rewrite particle_at_round, E. unfold stored, spawned. fold src.
  cbn [Particle.x Particle.y Particle.vx Particle.vy particle_at].
  rewrite Ex, Ey. cbn [nadd nsub nmul nneg]. rewrite Ex', Ey'.
  split; [exact Hsrc |]. do 4 (split; [reflexivity |]).
  apply Rabs_le_between in Hx'. apply Rabs_le_between in Hy'.
  split; [apply Rabs_le; lra |]. split; [apply Rabs_le; lra |].
  do 2 (split; [reflexivity |]).
  cbn [round_store particlePositions]. rewrite list_lookup_fmap, Ez. cbn [fmap option_fmap option_map]. by rewrite to_float32_0.
Qed.
End Creation32.

Lemma first_creation_witness :
  exists new,
    createParticles32 (fun _ => 0.25) (PARAMS.mk 3 2 1 1 0.1 2) (mkWorld None 0)
      = mkWorld (Some new) (0 + 2 * 2)
    /\ sized 2 new
    /\ contained half_size32 2 new
    /\ forall i, (i < 2)%nat ->
         exists x y : R,
           particle_at new i = Particle.mk (Fin x) (Fin y) (Fin 0) (Fin 0)
           /\ Rabs (x - (0.25 - 0.5) * 2.4) <= / 10000000
           /\ Rabs (y - (0.25 - 0.5) * 2.4) <= / 10000000
           /\ particlePositions new !! (i * 3 + 2)%nat = Some (Fin 0).
Proof.
  apply (first_creation (fun _ => 0.25) (PARAMS.mk 3 2 1 1 0.1 2) 0).
  intros j. lra.
Defined.

Lemma growth_near_existing_witness :
  exists new,
    createParticles32 (fun _ => 0.25) (PARAMS.mk 3 2 1 1 0.1 3)
      (mkWorld (Some (mkStore [Fin 0.1; Fin 0.2; Fin 0] [Fin 0.01; Fin 0])) 0)
      = mkWorld (Some new) (0 + 3 * (3 - 1))
    /\ sized 3 new
    /\ forall i, (1 <= i < 3)%nat ->
         exists (src : nat) (xs ys x' y' : R),
           (src < 1)%nat
           /\ Particle.x (particle_at (mkStore [Fin 0.1; Fin 0.2; Fin 0] [Fin 0.01; Fin 0]) src)
              = Fin xs
           /\ Particle.y (particle_at (mkStore [Fin 0.1; Fin 0.2; Fin 0] [Fin 0.01; Fin 0]) src)
              = Fin ys
           /\ Particle.x (particle_at new i) = Fin x'
           /\ Particle.y (particle_at new i) = Fin y'
           /\ Rabs (x' - xs) <= 0.05 + / 10000000
           /\ Rabs (y' - ys) <= 0.05 + / 10000000
           /\ Particle.vx (particle_at new i)
              = to_float32
                  (Particle.vx (particle_at (mkStore [Fin 0.1; Fin 0.2; Fin 0] [Fin 0.01; Fin 0])
                                  src) * 0.5)%J
           /\ Particle.vy (particle_at new i)
              = to_float32
                  (Particle.vy (particle_at (mkStore [Fin 0.1; Fin 0.2; Fin 0] [Fin 0.01; Fin 0])
                                  src) * 0.5)%J
           /\ particlePositions new !! (i * 3 + 2)%nat = Some (Fin 0).
Proof.
  apply (growth_near_existing (fun _ => 0.25) (PARAMS.mk 3 2 1 1 0.1 3)
           (mkStore [Fin 0.1; Fin 0.2; Fin 0] [Fin 0.01; Fin 0]) 0 1).
  - intros j. lra.
  - split; reflexivity.
  - intros i Hi. assert (i = 0%nat) as -> by lia.
    exists 0.1, 0.2. cbn. unfold half_size32. repeat split; apply Rabs_le; lra.
  - cbn. lia.
Defined.

(** * Further properties of [getAudioLevel] *)

Lemma max_spread_abs_peak (waveform : list num) :
  Forall is_finite waveform -> waveform <> [] ->
  exists l : R,
    Math_max_spread (map Math_abs waveform) = Fin l
    /\ (forall r, Fin r ∈ waveform -> Rabs r <= l)
    /\ (exists r, Fin r ∈ waveform /\ l = Rabs r).
Proof.
  induction 1 as [| u w Hu Hw IH]; [congruence |]. intros _.
  destruct u as [r | | |]; try contradiction.
  unfold Math_max_spread in *. cbn [map Math_abs fold_right].
  destruct w as [| u' w'].
  - exists (Rabs r). cbn. split; [reflexivity |]. split.
    + intros r' Hin. apply list_elem_of_singleton in Hin. injection Hin as ->. lra.
    + exists r. split; [apply list_elem_of_here | reflexivity].
  - destruct IH as (l & -> & Hall & (r0 & Hin0 & El)); [congruence |].
    rewrite Math_max_Fin. exists (Rmax (Rabs r) l). split; [reflexivity |]. split.
    + intros r' Hin. apply elem_of_cons in Hin as [Heq | Hin].
      * injection Heq as ->. apply Rmax_l.
      * etransitivity; [apply Hall, Hin | apply Rmax_r].
    + unfold Rmax. destruct (Rle_dec (Rabs r) l).
      * exists r0. split; [by apply list_elem_of_further | exact El].
      * exists r. split; [apply list_elem_of_here | reflexivity].
Qed.

(** X10: with audio enabled and a non-empty waveform of finite samples,
    [getAudioLevel] is the peak absolute sample: a non-negative number that
    bounds the absolute value of every sample and is reached by one of
    them. *)
Theorem audio_level_is_peak (a : audio.t) (waveform : list num) :
  audio.audioEnabled a = true -> audio.analyzer a = Some waveform ->
  Forall is_finite waveform -> waveform <> [] ->
  exists l : R,
    audio.getAudioLevel a = Fin l
    /\ 0 <= l
    /\ (forall r, Fin r ∈ waveform -> Rabs r <= l)
    /\ (exists r, Fin r ∈ waveform /\ l = Rabs r).
Proof.
  intros Hen Han Hfin Hne. unfold audio.getAudioLevel. rewrite Han, Hen.
  destruct (max_spread_abs_peak waveform Hfin Hne) as (l & E & Hall & (r & Hin & El)).
  exists l. split; [exact E |]. split; [rewrite El; apply Rabs_pos |]. split; [exact Hall |].
  by exists r.
Qed.

Lemma audio_level_is_peak_witness :
  exists l : R,
    audio.getAudioLevel (audio.mk true (Some [Fin 0.2; Fin (-0.7); Fin 0.5])) = Fin l
    /\ 0 <= l
    /\ (forall r, Fin r ∈ [Fin 0.2; Fin (-0.7); Fin 0.5] -> Rabs r <= l)
    /\ (exists r, Fin r ∈ [Fin 0.2; Fin (-0.7); Fin 0.5] /\ l = Rabs r).
Proof.
  apply (audio_level_is_peak (audio.mk true (Some [Fin 0.2; Fin (-0.7); Fin 0.5]))).
  - reflexivity.
  - reflexivity.
  - repeat constructor.
  - discriminate.
Defined.

Lemma Math_max_NaN_r (a : num) : Math_max a NaN = NaN.
Proof. by destruct a. Qed.

Lemma max_spread_NaN (values : list num) : NaN ∈ values -> Math_max_spread values = NaN.
Proof.
  unfold Math_max_spread. induction values as [| u w IH]; intros Hin.
  - by apply not_elem_of_nil in Hin.
  - cbn [fold_right]. apply elem_of_cons in Hin as [<- | Hin]; [reflexivity |].
    rewrite (IH Hin). apply Math_max_NaN_r.
Qed.

(** X11: one NaN sample anywhere in the waveform makes the audio level NaN, and
    the frame then takes the inactive branch. *)
Theorem NaN_sample_silences (a : audio.t) (waveform : list num) :
  audio.audioEnabled a = true -> audio.analyzer a = Some waveform -> NaN ∈ waveform ->
  audio.getAudioLevel a = NaN /\ isAudioActive a = false.
Proof.
  intros Hen Han Hin.
  assert (E : audio.getAudioLevel a = NaN).
  { unfold audio.getAudioLevel. rewrite Han, Hen. apply max_spread_NaN.
    apply (list_elem_of_fmap_2 Math_abs) in Hin. exact Hin. }
  split; [exact E |]. unfold isAudioActive. rewrite E. apply andb_false_r.
Qed.

Lemma NaN_sample_silences_witness :
  audio.getAudioLevel (audio.mk true (Some [Fin 0.9; NaN; Fin 0.1])) = NaN
  /\ isAudioActive (audio.mk true (Some [Fin 0.9; NaN; Fin 0.1])) = false.
Proof.
  apply (NaN_sample_silences _ [Fin 0.9; NaN; Fin 0.1]).
  - reflexivity.
  - reflexivity.
  - apply list_elem_of_further, list_elem_of_here.
Defined.

(** * Further properties of [calculateFrequency] *)

Lemma nadd_comm (a b : num) : (a + b)%J = (b + a)%J.
Proof. destruct a, b; cbn; try reflexivity. f_equal. ring. Qed.

Lemma nmul_neg_neg (a : num) : (- a * - a)%J = (a * a)%J.
Proof.
  destruct a as [x | | |]; cbn; try reflexivity. f_equal. ring.
Qed.

(** X12: the frequency does not change when the two mode numbers are swapped,
    when the two amplitude coefficients are swapped, or when the sign of any
    argument is flipped. *)
Theorem calculateFrequency_symmetric (m n a b : num) :
  calculateFrequency n m a b = calculateFrequency m n a b
  /\ calculateFrequency m n b a = calculateFrequency m n a b
  /\ calculateFrequency (- m)%J n a b = calculateFrequency m n a b
  /\ calculateFrequency m (- n)%J a b = calculateFrequency m n a b
  /\ calculateFrequency m n (- a)%J b = calculateFrequency m n a b
  /\ calculateFrequency m n a (- b)%J = calculateFrequency m n a b.
Proof.
  unfold calculateFrequency. cbv zeta. rewrite !nmul_neg_neg.
  rewrite (nadd_comm (n * n)%J (m * m)%J), (nadd_comm (b * b)%J (a * a)%J).
  repeat split.
Qed.

Lemma Math_sqrt_NaN_sum_l (u : num) : Math_sqrt (NaN + u)%J = NaN.
Proof. reflexivity. Qed.

Lemma Math_sqrt_NaN_sum_r (u : num) : Math_sqrt (u + NaN)%J = NaN.
Proof. by rewrite nadd_NaN_r. Qed.

Lemma nmul_NaN_r (a : num) : (a * NaN)%J = NaN.
Proof. by destruct a. Qed.

(** X13: the clamp to [20, 2000] does not catch NaN: if any argument is NaN the
    result is NaN. *)
Theorem calculateFrequency_NaN (m n a b : num) :
  m = NaN \/ n = NaN \/ a = NaN \/ b = NaN -> calculateFrequency m n a b = NaN.
Proof.
  unfold calculateFrequency. cbv zeta.
  intros [-> | [-> | [-> | ->]]]; cbn [nmul];
    rewrite ?nmul_NaN_r, ?Math_sqrt_NaN_sum_l, ?Math_sqrt_NaN_sum_r, ?nmul_NaN_r;
    reflexivity.
Qed.

Lemma calculateFrequency_NaN_witness : calculateFrequency (Fin 3) (Fin 2) NaN (Fin 1) = NaN.
Proof.
  apply calculateFrequency_NaN. right. right. left. reflexivity.
Defined.

(** * The keys held down (audio.js and the keyboard listeners) *)

Lemma is_key_spec (keyUpper : string) (item : ActiveKey.t) :
  keys.is_key keyUpper item = true <-> ActiveKey.key item = keyUpper.
Proof. unfold keys.is_key. apply String.eqb_eq. Qed.

Lemma existsb_is_key_false (keyUpper : string) (stack : list ActiveKey.t) :
  existsb (keys.is_key keyUpper) stack = false <-> keyUpper ∉ ActiveKey.key <$> stack.
Proof.
  induction stack as [| item stack IH]; cbn.
  - split; [intros _; apply not_elem_of_nil | reflexivity].
  - rewrite orb_false_iff, IH, not_elem_of_cons. split.
    + intros [Hk Hr]. split; [| exact Hr]. intros ->.
      assert (keys.is_key (ActiveKey.key item) item = true) by by apply is_key_spec.
      congruence.
    + intros [Hk Hr]. split; [| exact Hr].
      destruct (keys.is_key keyUpper item) eqn:E; [| reflexivity].
      apply is_key_spec in E. congruence.
Qed.

Lemma findIndex_fresh {A : Type} (pred : A -> bool) (l : list A) (x : A) :
  existsb pred l = false -> pred x = true -> keys.findIndex pred (l ++ [x]) = Some (length l).
Proof.
  intros Hl Hx. induction l as [| y l IH]; cbn in *.
  - by rewrite Hx.
  - apply orb_false_iff in Hl as [Hy Hl]. rewrite Hy, (IH Hl). reflexivity.
Qed.

Lemma findIndex_None {A : Type} (pred : A -> bool) (l : list A) :
  existsb pred l = false -> keys.findIndex pred l = None.
Proof.
  induction l as [| y l IH]; cbn; [reflexivity |].
  intros H. apply orb_false_iff in H as [Hy Hl]. by rewrite Hy, (IH Hl).
Qed.

Lemma delete_last {A : Type} (l : list A) (x : A) : delete (length l) (l ++ [x]) = l.
Proof. rewrite delete_middle. apply app_nil_r. Qed.

Lemma stack_ok_delete (i : nat) (stack : list ActiveKey.t) :
  stack_ok stack -> stack_ok (delete i stack).
Proof.
  intros [Hnd Hall]. split.
  - rewrite list_fmap_delete. eapply sublist_NoDup; [exact Hnd | apply sublist_delete].
  - by apply Forall_delete.
Qed.

Lemma stack_ok_push (keyUpper : string) (pattern : Pattern.t) (stack : list ActiveKey.t) :
  stack_ok stack ->
  is_Some (property_get baseKeyPatternMap keyUpper) ->
  existsb (keys.is_key keyUpper) stack = false ->
  stack_ok (stack ++ [ActiveKey.mk keyUpper pattern (calculateFrequencyFromPattern pattern)]).
Proof.
  intros [Hnd Hall] Hkey Hfresh. apply existsb_is_key_false in Hfresh. split.
  - rewrite fmap_app. apply NoDup_app. split; [exact Hnd |]. split.
    + intros k Hk Hin. cbn in Hin. apply list_elem_of_singleton in Hin. by subst.
    + apply NoDup_singleton.
  - apply Forall_app. split; [exact Hall |]. by repeat constructor.
Qed.

Lemma handleKeyDown_ok (P : PARAMS.t) (fault : option nat) (event : KeyEvent.t) (s : keys.t) :
  stack_ok (keys.activeKeysStack s) ->
  stack_ok (keys.activeKeysStack (fst (fst (keys.handleKeyDown P fault event s)))).
Proof.
  intros Hok. unfold keys.handleKeyDown.
  destruct (_ || _ || KeyEvent.repeat event); [exact Hok |].
  destruct (_ || _ || _); [exact Hok |].
  destruct (property_get baseKeyPatternMap _) as [basePattern |] eqn:Ekey; [| exact Hok].
  destruct (existsb _ _) eqn:Eact; [exact Hok |]. cbn [negb].
  destruct (keys.try_calls _ _) as [calls completed]. cbn [fst keys.activeKeysStack].
  apply stack_ok_push; [exact Hok | by rewrite Ekey | exact Eact].
Qed.

Lemma handleKeyUp_ok (event : KeyEvent.t) (s : keys.t) :
  stack_ok (keys.activeKeysStack s) ->
  stack_ok (keys.activeKeysStack (fst (fst (keys.handleKeyUp event s)))).
Proof.
  intros Hok. unfold keys.handleKeyUp.
  destruct (_ || _); [exact Hok |].
  destruct (keys.findIndex _ _) as [idx |]; [| exact Hok].
  destruct (last _); cbn [fst keys.activeKeysStack]; by apply stack_ok_delete.
Qed.

Lemma stopAudio_ok (s : keys.t) :
  stack_ok (keys.activeKeysStack s) -> stack_ok (keys.activeKeysStack (fst (keys.stopAudio s))).
Proof.
  intros Hok. unfold keys.stopAudio. destruct (_ && _); [| exact Hok].
  cbn. split; constructor.
Qed.

Lemma react_ok (st : PARAMS.t * keys.t) (action : ui_action) :
  stack_ok (keys.activeKeysStack (snd st)) ->
  stack_ok (keys.activeKeysStack (snd (react st action))).
Proof.
  intros Hok. destruct st as [P s]. cbn [snd] in Hok.
  destruct action as [isPlaying fault event | event |]; cbn [react].
  - unfold onKeyDown. destruct (_ && _).
    + destruct (keys.isAudioEnabled s); [| exact Hok].
      pose proof (handleKeyDown_ok P fault (KeyEvent.mk "SPACE" false) s Hok) as H.
      destruct (keys.handleKeyDown _ _ _ _) as [[s' r] calls]. exact H.
    + destruct (_ || _); [| exact Hok].
      pose proof (handleKeyDown_ok P fault
                    (KeyEvent.mk (KeyboardEvent.key event) (KeyboardEvent.repeat event)) s Hok)
        as H.
      destruct (keys.handleKeyDown _ _ _ _) as [[s' r] calls]. by destruct r.
  - unfold onKeyUp. destruct (String.eqb _ _).
    + destruct (keys.isAudioEnabled s); [| exact Hok].
      pose proof (handleKeyUp_ok (KeyEvent.mk "SPACE" false) s Hok) as H.
      destruct (keys.handleKeyUp _ _) as [[s' r] calls]. exact H.
    + destruct (keys.isAudioEnabled s); [| exact Hok].
      pose proof (handleKeyUp_ok
                    (KeyEvent.mk (KeyboardEvent.key event) (KeyboardEvent.repeat event)) s Hok)
        as H.
      destruct (keys.handleKeyUp _ _) as [[s' r] calls]. by destruct r.
  - by apply stopAudio_ok.
Qed.

(** X14: whatever keys are pressed and released, with whatever faults of the
    synthesizer, and whenever audio is stopped, the stack of active keys stays
    well formed: no key is on it twice, every key on it is a key of
    [baseKeyPatternMap], and every entry carries the frequency computed from
    its own pattern. *)
Theorem active_keys_stay_well_formed (actions : list ui_action) (st : PARAMS.t * keys.t) :
  stack_ok (keys.activeKeysStack (snd st)) ->
  stack_ok (keys.activeKeysStack (snd (fold_left react actions st))).
Proof.
  revert st. induction actions as [| action actions IH]; intros st Hok; [exact Hok |].
  cbn [fold_left]. apply IH. by apply react_ok.
Qed.

Lemma active_keys_stay_well_formed_witness :
  stack_ok
    (keys.activeKeysStack
       (snd (fold_left react
               [KeyDown false None (KeyboardEvent.mk "KeyA" "a" false);
                KeyDown false (Some 2%nat) (KeyboardEvent.mk "KeyS" "s" false);
                KeyDown false None (KeyboardEvent.mk "Space" " " false);
                KeyUp (KeyboardEvent.mk "KeyA" "a" false);
                StopAudio]
               (PARAMS.initial,
                keys.mk (audio.mk true (Some [Fin 0.2])) true true true true [])))).
Proof.
  apply active_keys_stay_well_formed. split; constructor.
Defined.

Lemma handleKeyDown_fresh (P : PARAMS.t) (fault : option nat) (event : KeyEvent.t) (s : keys.t) :
  keys_ready s -> fresh_press event s ->
  let keyUpper := toUpperCase (KeyEvent.key event) in
  let pattern := pressed_pattern P keyUpper in
  let freq := calculateFrequencyFromPattern pattern in
  let s' := keys.mk (keys.core s) true true true true
              (keys.activeKeysStack s ++ [ActiveKey.mk keyUpper pattern freq]) in
  keys.handleKeyDown P fault event s
  = (s', if snd (keys.try_calls fault (keys.key_sound_calls s' pattern freq))
         then Some pattern else None,
     fst (keys.try_calls fault (keys.key_sound_calls s' pattern freq))).
Proof.
  intros (He & Hs & Hf & Hd & Hr) (Hrep & [bp Hkey] & Hfresh). cbv zeta.
  unfold keys.handleKeyDown, pressed_pattern. rewrite He, Hs, Hf, Hd, Hr, Hrep, Hkey, Hfresh.
  cbn [negb orb]. by destruct (keys.try_calls _ _).
Qed.

Lemma handleKeyUp_after_push (event : KeyEvent.t) (s : keys.t) (pattern : Pattern.t)
    (freq : num) :
  keys_ready s ->
  existsb (keys.is_key (toUpperCase (KeyEvent.key event))) (keys.activeKeysStack s) = false ->
  keys.handleKeyUp event
    (keys.mk (keys.core s) true true true true
       (keys.activeKeysStack s ++ [ActiveKey.mk (toUpperCase (KeyEvent.key event)) pattern freq]))
  = (s, ActiveKey.pattern <$> last (keys.activeKeysStack s),
     synth_triggerRelease
       :: match last (keys.activeKeysStack s) with
          | Some item => [synth_triggerAttack (ActiveKey.frequency item)]
          | None => []
          end).
Proof.
  intros (He & Hs & Hf & Hd & Hr) Hfresh.
  unfold keys.handleKeyUp, keys.audioEnabled.
  cbn [keys.core keys.synth keys.activeKeysStack].
  unfold keys.audioEnabled in He. rewrite He. cbn [negb orb].
  rewrite (findIndex_fresh _ _ _ Hfresh) by (apply is_key_spec; reflexivity).
  rewrite delete_last.
  destruct s as [core synth filter delay reverb stack]. cbn in *. subst.
  by destruct (last stack).
Qed.

(** X15: pressing a key that is not held and releasing it again restores the
    audio state, whether or not the synthesizer failed during the press; the
    release hands back the pattern of the key on top of the stack, if any,
    and restarts its note. *)
Theorem press_release_round_trip (P : PARAMS.t) (fault : option nat) (event : KeyEvent.t)
    (s : keys.t) :
  keys_ready s -> fresh_press event s ->
  keys.handleKeyUp event (fst (fst (keys.handleKeyDown P fault event s)))
  = (s, ActiveKey.pattern <$> last (keys.activeKeysStack s),
     synth_triggerRelease
       :: match last (keys.activeKeysStack s) with
          | Some item => [synth_triggerAttack (ActiveKey.frequency item)]
          | None => []
          end).
Proof.
  intros Hready Hpress. rewrite (handleKeyDown_fresh P fault event s Hready Hpress).
  cbn [fst]. apply handleKeyUp_after_push; [exact Hready | apply Hpress].
Qed.

Lemma press_release_round_trip_witness :
  keys.handleKeyUp (KeyEvent.mk "d" false)
    (fst (fst (keys.handleKeyDown PARAMS.initial (Some 1%nat) (KeyEvent.mk "d" false)
                 (keys.mk (audio.mk true None) true true true true
                    [ActiveKey.mk "A" (Pattern.mk 1 9 2 (-2) "flower")
                       (calculateFrequencyFromPattern (Pattern.mk 1 9 2 (-2) "flower"))]))))
  = (keys.mk (audio.mk true None) true true true true
       [ActiveKey.mk "A" (Pattern.mk 1 9 2 (-2) "flower")
          (calculateFrequencyFromPattern (Pattern.mk 1 9 2 (-2) "flower"))],
     Some (Pattern.mk 1 9 2 (-2) "flower"),
     [synth_triggerRelease;
      synth_triggerAttack (calculateFrequencyFromPattern (Pattern.mk 1 9 2 (-2) "flower"))]).
Proof.
  apply (press_release_round_trip PARAMS.initial (Some 1%nat) (KeyEvent.mk "d" false)).
  - repeat split.
  - split; [reflexivity |]. split; [by eexists | reflexivity].
Defined.

(** X16: a press during which the synthesizer throws returns no pattern, yet the
    key stays on the stack: until it is released, pressing it again does
    nothing at all. *)
Theorem failed_press_blocks_key (P : PARAMS.t) (n : nat) (event : KeyEvent.t) (s : keys.t) :
  keys_ready s -> fresh_press event s -> (n < 5)%nat ->
  snd (fst (keys.handleKeyDown P (Some n) event s)) = None
  /\ length (snd (keys.handleKeyDown P (Some n) event s)) = n
  /\ forall P' fault',
       keys.handleKeyDown P' fault' event (fst (fst (keys.handleKeyDown P (Some n) event s)))
       = (fst (fst (keys.handleKeyDown P (Some n) event s)), None, []).
Proof.
  intros Hready Hpress Hn. rewrite (handleKeyDown_fresh P (Some n) event s Hready Hpress).
  destruct Hready as (He & Hs & Hf & Hd & Hr). destruct Hpress as (Hrep & [bp Hkey] & Hfresh).
  cbn [fst snd keys.try_calls keys.key_sound_calls keys.filter keys.delay app length].
  destruct (Nat.ltb_spec n 5) as [_ | H]; [| lia]. cbn [fst snd].
  split; [reflexivity |]. split; [rewrite length_take; cbn [length]; lia |].
  intros P' fault'. unfold keys.handleKeyDown, keys.audioEnabled.
  cbn [keys.core keys.synth keys.filter keys.delay keys.reverb keys.activeKeysStack].
  unfold keys.audioEnabled in He. rewrite He, Hrep, Hkey. cbn [negb orb].
  rewrite existsb_app. cbn [existsb].
  assert (E : keys.is_key (toUpperCase (KeyEvent.key event))
                {| ActiveKey.key := toUpperCase (KeyEvent.key event);
                   ActiveKey.pattern := pressed_pattern P (toUpperCase (KeyEvent.key event));
                   ActiveKey.frequency :=
                     calculateFrequencyFromPattern
                       (pressed_pattern P (toUpperCase (KeyEvent.key event))) |} = true)
    by (apply is_key_spec; reflexivity).
  rewrite E, Hfresh. reflexivity.
Qed.

Lemma failed_press_blocks_key_witness :
  snd (fst (keys.handleKeyDown PARAMS.initial (Some 4%nat) (KeyEvent.mk "q" false)
              (keys.mk (audio.mk true None) true true true true []))) = None
  /\ length (snd (keys.handleKeyDown PARAMS.initial (Some 4%nat) (KeyEvent.mk "q" false)
                    (keys.mk (audio.mk true None) true true true true []))) = 4%nat
  /\ forall P' fault',
       keys.handleKeyDown P' fault' (KeyEvent.mk "q" false)
         (fst (fst (keys.handleKeyDown PARAMS.initial (Some 4%nat) (KeyEvent.mk "q" false)
                      (keys.mk (audio.mk true None) true true true true []))))
       = (fst (fst (keys.handleKeyDown PARAMS.initial (Some 4%nat) (KeyEvent.mk "q" false)
                      (keys.mk (audio.mk true None) true true true true []))), None, []).
Proof.
  apply failed_press_blocks_key.
  - repeat split.
  - split; [reflexivity |]. split; [by eexists | reflexivity].
  - lia.
Defined.

Lemma table_pattern_finite (keyUpper : string) (basePattern : option Pattern.t) :
  property_get baseKeyPatternMap keyUpper = Some basePattern ->
  String.eqb keyUpper "SPACE" = false ->
  exists (m n a b : R) (type : string),
    basePattern = Some (Pattern.mk (Fin m) (Fin n) (Fin a) (Fin b) type).
Proof.
  unfold baseKeyPatternMap. cbn [property_get]. intros H Hsp.
  repeat match type of H with
         | (if String.eqb ?k keyUpper then _ else _) = _ =>
             destruct (String.eqb k keyUpper) eqn:?;
             [injection H as <-; try (by eexists _, _, _, _, _) |]
         end.
  - match goal with
    | E : String.eqb "SPACE" keyUpper = true |- _ => apply String.eqb_eq in E; subst
    end.
    discriminate.
  - discriminate.
Qed.

Lemma pressed_pattern_finite (P : PARAMS.t) (keyUpper : string) :
  finite_params P -> is_Some (property_get baseKeyPatternMap keyUpper) ->
  exists (m n a b : R) (type : string),
    pressed_pattern P keyUpper = Pattern.mk (Fin m) (Fin n) (Fin a) (Fin b) type.
Proof.
  intros (Hm & Hn & Ha & Hb & _) [bp Hkey]. unfold pressed_pattern.
  destruct (String.eqb keyUpper "SPACE") eqn:Esp.
  - destruct (PARAMS.m P), (PARAMS.n P), (PARAMS.patternMixX P), (PARAMS.patternMixY P);
      try contradiction. by eexists _, _, _, _, _.
  - rewrite Hkey. destruct (table_pattern_finite keyUpper bp Hkey Esp) as (m & n & a & b & ty & ->).
    by exists m, n, a, b, ty.
Qed.

(** X17: a completed press of a key with a finite pattern (any key of the table,
    or SPACE with finite parameters) programs the synthesizer within fixed
    ranges: the note is in [20, 2000] Hz, the filter frequency is twice the
    note (so the cap at 10000 is never reached), Q and harmonicity are at
    least 1, the delay time is at most 0.5 and the modulation index at most
    15. *)
Theorem key_sound_in_range (P : PARAMS.t) (event : KeyEvent.t) (s : keys.t) :
  keys_ready s -> fresh_press event s -> finite_params P ->
  exists freq Q delayTime harmonicity modulationIndex : R,
    snd (keys.handleKeyDown P None event s)
    = [filter_frequency_set (Fin (freq * 2)); filter_Q_set (Fin Q);
       delay_delayTime_set (Fin delayTime);
       synth_set (Fin harmonicity) (Fin modulationIndex);
       synth_triggerAttack (Fin freq)]
    /\ 20 <= freq <= 2000
    /\ 1 <= Q /\ delayTime <= 0.5 /\ 1 <= harmonicity /\ modulationIndex <= 15.
Proof.
  intros Hready Hpress HP. rewrite (handleKeyDown_fresh P None event s Hready Hpress).
  destruct Hpress as (_ & Hkey & _).
  destruct (pressed_pattern_finite P _ HP Hkey) as (m & n & a & b & ty & ->).
  cbn [snd fst keys.try_calls keys.key_sound_calls keys.filter keys.delay app
       Pattern.m Pattern.n].
  change (calculateFrequencyFromPattern (Pattern.mk (Fin m) (Fin n) (Fin a) (Fin b) ty))
    with (calculateFrequency (Fin m) (Fin n) (Fin a) (Fin b)).
  rewrite calculateFrequency_Fin.
  set (freq := Rmin (Rmax _ 20) 2000).
  assert (Hfreq : 20 <= freq <= 2000) by apply clamp_range.
  cbn [nadd nmul]. rewrite !ndiv_Fin by lra. rewrite !Math_max_Fin, !Math_min_Fin.
  assert (Hcap : Rmin 10000 (freq * 2) = freq * 2).
  { apply Rmin_right. lra. }
  rewrite Hcap.
  eexists freq, _, _, _, _. split; [reflexivity |]. split; [exact Hfreq |].
  split; [apply Rmax_l |]. split; [apply Rmin_l |]. split; [apply Rmax_l | apply Rmin_l].
Qed.

Lemma key_sound_in_range_witness :
  exists freq Q delayTime harmonicity modulationIndex : R,
    snd (keys.handleKeyDown PARAMS.initial None (KeyEvent.mk "w" false)
           (keys.mk (audio.mk true None) true true true true []))
    = [filter_frequency_set (Fin (freq * 2)); filter_Q_set (Fin Q);
       delay_delayTime_set (Fin delayTime);
       synth_set (Fin harmonicity) (Fin modulationIndex);
       synth_triggerAttack (Fin freq)]
    /\ 20 <= freq <= 2000
    /\ 1 <= Q /\ delayTime <= 0.5 /\ 1 <= harmonicity /\ modulationIndex <= 15.
Proof.
  apply key_sound_in_range.
  - repeat split.
  - split; [reflexivity |]. split; [by eexists | reflexivity].
  - repeat split.
Defined.

(** X18: stopping audio while the synthesizer is set disables audio: the audio
    level reads 0, so every later frame is inactive, and key presses and
    releases do nothing; if audio was enabled, the stack of active keys is
    emptied. *)
Theorem stop_silences (s : keys.t) :
  keys.synth s = true ->
  let s' := fst (keys.stopAudio s) in
  keys.isAudioEnabled s' = false
  /\ audio.getAudioLevel (keys.core s') = Fin 0
  /\ isAudioActive (keys.core s') = false
  /\ (keys.audioEnabled s = true -> keys.activeKeysStack s' = [])
  /\ (forall P fault event, keys.handleKeyDown P fault event s' = (s', None, []))
  /\ (forall event, keys.handleKeyUp event s' = (s', None, [])).
Proof.
  intros Hs. cbv zeta.
  assert (Hoff : keys.audioEnabled (fst (keys.stopAudio s)) = false).
  { unfold keys.stopAudio. rewrite Hs. cbn [andb].
    destruct (keys.audioEnabled s) eqn:E; [reflexivity | exact E]. }
  assert (Hlevel : audio.getAudioLevel (keys.core (fst (keys.stopAudio s))) = Fin 0).
  { unfold keys.audioEnabled in Hoff. unfold audio.getAudioLevel. rewrite Hoff.
    by destruct (audio.analyzer _). }
  split; [exact Hoff |]. split; [exact Hlevel |]. split; [| split; [| split]].
  - unfold isAudioActive, audio.isAudioEnabled. unfold keys.audioEnabled in Hoff.
    by rewrite Hoff.
  - intros He. unfold keys.stopAudio. by rewrite Hs, He.
  - intros P fault event. unfold keys.handleKeyDown. by rewrite Hoff.
  - intros event. unfold keys.handleKeyUp. by rewrite Hoff.
Qed.

Lemma stop_silences_witness :
  let s' := fst (keys.stopAudio
                   (keys.mk (audio.mk true (Some [Fin 0.6])) true true true true
                      [ActiveKey.mk "A" (Pattern.mk 1 9 2 (-2) "flower") (Fin 1000)])) in
  keys.isAudioEnabled s' = false
  /\ audio.getAudioLevel (keys.core s') = Fin 0
  /\ isAudioActive (keys.core s') = false
  /\ (keys.audioEnabled
        (keys.mk (audio.mk true (Some [Fin 0.6])) true true true true
           [ActiveKey.mk "A" (Pattern.mk 1 9 2 (-2) "flower") (Fin 1000)]) = true ->
      keys.activeKeysStack s' = [])
  /\ (forall P fault event, keys.handleKeyDown P fault event s' = (s', None, []))
  /\ (forall event, keys.handleKeyUp event s' = (s', None, [])).
Proof.
  apply (stop_silences
           (keys.mk (audio.mk true (Some [Fin 0.6])) true true true true
              [ActiveKey.mk "A" (Pattern.mk 1 9 2 (-2) "flower") (Fin 1000)])).
  reflexivity.
Defined.

(** X19: while audio is disabled the [keydown] listener changes nothing, neither
    the parameters nor the audio state, and makes no call, even when
    [PARAMS.isPlaying] is set. *)
Theorem keydown_needs_audio (isPlaying : bool) (fault : option nat) (event : KeyboardEvent.t)
    (P : PARAMS.t) (s : keys.t) :
  keys.isAudioEnabled s = false ->
  onKeyDown isPlaying fault event (P, s) = (P, s, []).
Proof.
  intros Hoff. unfold onKeyDown. rewrite Hoff.
  destruct (_ && _); [reflexivity |]. cbn [orb].
  destruct isPlaying; [| reflexivity].
  unfold keys.handleKeyDown. unfold keys.isAudioEnabled in Hoff. by rewrite Hoff.
Qed.

Lemma keydown_needs_audio_witness :
  onKeyDown true None (KeyboardEvent.mk "KeyA" "a" false)
    (PARAMS.initial, keys.mk (audio.mk false None) true true true true [])
  = (PARAMS.initial, keys.mk (audio.mk false None) true true true true [], []).
Proof.
  apply keydown_needs_audio. reflexivity.
Defined.

(** X20: a completed press of a pattern key makes [PARAMS] show the pattern that
    sounds: the listener copies m, n, a and b of the pressed pattern into
    [PARAMS] (leaving the vibration strength and the particle count), the
    key is on top of the stack with that pattern, and the note started is
    [calculateFrequency] of the new parameters. *)
Theorem keydown_adopts_pattern (isPlaying : bool) (event : KeyboardEvent.t)
    (P : PARAMS.t) (s : keys.t) :
  keys_ready s ->
  fresh_press (KeyEvent.mk (KeyboardEvent.key event) (KeyboardEvent.repeat event)) s ->
  String.eqb (KeyboardEvent.code event) "Space" = false ->
  exists P' s' calls pattern,
    onKeyDown isPlaying None event (P, s) = (P', s', calls)
    /\ pattern = pressed_pattern P (toUpperCase (KeyboardEvent.key event))
    /\ P' = adopt_pattern P pattern
    /\ last (keys.activeKeysStack s')
       = Some (ActiveKey.mk (toUpperCase (KeyboardEvent.key event)) pattern
                 (calculateFrequency (PARAMS.m P') (PARAMS.n P') (PARAMS.patternMixX P')
                    (PARAMS.patternMixY P')))
    /\ last calls
       = Some (synth_triggerAttack
                 (calculateFrequency (PARAMS.m P') (PARAMS.n P') (PARAMS.patternMixX P')
                    (PARAMS.patternMixY P'))).
Proof.
  intros Hready Hpress Hcode. unfold onKeyDown. rewrite Hcode. cbn [andb].
  pose proof Hready as (He & _). unfold keys.isAudioEnabled. rewrite He. cbn [orb].
  rewrite (handleKeyDown_fresh P None _ s Hready Hpress).
  cbn [KeyEvent.key keys.try_calls fst snd].
  eexists _, _, _, _. split; [reflexivity |]. split; [reflexivity |]. split; [reflexivity |].
  cbn [keys.activeKeysStack]. split; [apply last_snoc |].
  unfold keys.key_sound_calls. cbn [keys.filter keys.delay].
  cbn [app]. reflexivity.
Qed.

Lemma keydown_adopts_pattern_witness :
  exists P' s' calls pattern,
    onKeyDown false None (KeyboardEvent.mk "KeyG" "g" false)
      (PARAMS.initial, keys.mk (audio.mk true None) true true true true [])
    = (P', s', calls)
    /\ pattern = pressed_pattern PARAMS.initial (toUpperCase "g")
    /\ P' = adopt_pattern PARAMS.initial pattern
    /\ last (keys.activeKeysStack s')
       = Some (ActiveKey.mk (toUpperCase "g") pattern
                 (calculateFrequency (PARAMS.m P') (PARAMS.n P') (PARAMS.patternMixX P')
                    (PARAMS.patternMixY P')))
    /\ last calls
       = Some (synth_triggerAttack
                 (calculateFrequency (PARAMS.m P') (PARAMS.n P') (PARAMS.patternMixX P')
                    (PARAMS.patternMixY P'))).
Proof.
  apply (keydown_adopts_pattern false (KeyboardEvent.mk "KeyG" "g" false)).
  - repeat split.
  - split; [reflexivity |]. split; [by eexists | reflexivity].
  - reflexivity.
Defined.

(** X21: tapping a second key while another is held: after the release the audio
    state is what it was before the tap, and [PARAMS] show the pattern of the
    key still held (on top of the stack), whether or not the synthesizer
    failed during the press. *)
Theorem tap_returns_to_held_key (isPlaying : bool) (fault : option nat)
    (event : KeyboardEvent.t) (P : PARAMS.t) (s : keys.t) (held : ActiveKey.t) :
  keys_ready s ->
  fresh_press (KeyEvent.mk (KeyboardEvent.key event) (KeyboardEvent.repeat event)) s ->
  String.eqb (KeyboardEvent.code event) "Space" = false ->
  last (keys.activeKeysStack s) = Some held ->
  fst (onKeyUp event (fst (onKeyDown isPlaying fault event (P, s))))
  = (adopt_pattern P (ActiveKey.pattern held), s).
Proof.
  intros Hready Hpress Hcode Hheld. unfold onKeyDown. rewrite Hcode. cbn [andb].
  pose proof Hready as (He & _). unfold keys.isAudioEnabled. rewrite He. cbn [orb].
  rewrite (handleKeyDown_fresh P fault _ s Hready Hpress). cbn [KeyEvent.key].
  set (pattern := pressed_pattern P _).
  set (s1 := keys.mk _ _ _ _ _ _).
  assert (Hup : keys.handleKeyUp
                  (KeyEvent.mk (KeyboardEvent.key event) (KeyboardEvent.repeat event)) s1
                = (s, Some (ActiveKey.pattern held),
                   [synth_triggerRelease; synth_triggerAttack (ActiveKey.frequency held)])).
  { pose proof (handleKeyUp_after_push
                  (KeyEvent.mk (KeyboardEvent.key event) (KeyboardEvent.repeat event)) s
                  pattern (calculateFrequencyFromPattern pattern) Hready ltac:(apply Hpress))
      as H.
    cbn [KeyEvent.key] in H. unfold s1. rewrite H. by rewrite Hheld. }
  assert (He1 : keys.audioEnabled s1 = true) by exact He.
  destruct (snd (keys.try_calls fault _)); cbn [fst];
    unfold onKeyUp; rewrite Hcode; unfold keys.isAudioEnabled; rewrite He1, Hup;
    reflexivity.
Qed.

Lemma tap_returns_to_held_key_witness :
  fst (onKeyUp (KeyboardEvent.mk "KeyS" "s" false)
         (fst (onKeyDown false (Some 0%nat) (KeyboardEvent.mk "KeyS" "s" false)
                 (PARAMS.initial,
                  keys.mk (audio.mk true None) true true true true
                    [ActiveKey.mk "A" (Pattern.mk 1 9 2 (-2) "flower") (Fin 1000)]))))
  = (adopt_pattern PARAMS.initial (Pattern.mk 1 9 2 (-2) "flower"),
     keys.mk (audio.mk true None) true true true true
       [ActiveKey.mk "A" (Pattern.mk 1 9 2 (-2) "flower") (Fin 1000)]).
Proof.
  apply (tap_returns_to_held_key false (Some 0%nat) (KeyboardEvent.mk "KeyS" "s" false)
           PARAMS.initial
           (keys.mk (audio.mk true None) true true true true
              [ActiveKey.mk "A" (Pattern.mk 1 9 2 (-2) "flower") (Fin 1000)])
           (ActiveKey.mk "A" (Pattern.mk 1 9 2 (-2) "flower") (Fin 1000))).
  - repeat split.
  - split; [reflexivity |]. split; [by eexists | reflexivity].
  - reflexivity.
  - reflexivity.
Defined.
